(** * GPTQ graph partitioning and Hessian-based quantization

    A shallow embedding of the sequential-execution engine
    ([partitioned_model.py]) and of the GPTQ quantizer
    ([gptq_wrapper.py], [gptq_quantize.py]), with the properties the
    specification states about them. *)

From Stdlib Require Import Reals Lra.
From stdpp Require Import gmap strings list.

(** ** Python outcomes

    A call either returns, raises, or (for the one [while] loop of the
    development, which is run on a clock) is cut off. *)

Inductive exn :=
  | AssertionError
  | ValueError (msg : string)
  | KeyError (key : string)
  | TypeError (msg : string)
  | IndexError
  | ZeroDivisionError
  | RuntimeError (msg : string)
  | LinAlgError.

Inductive result (A : Type) :=
  | Ok (a : A)
  | Raise (e : exn)
  | Unfinished.
Arguments Ok {A} a.
Arguments Raise {A} e.
Arguments Unfinished {A}.

#[global] Instance result_ret : MRet result := @Ok.
#[global] Instance result_bind : MBind result := λ A B f m,
  match m with
  | Ok a => f a
  | Raise e => Raise e
  | Unfinished => Unfinished
  end.

Definition assert (b : bool) : result unit :=
  if b then Ok tt else Raise AssertionError.

(** ** The computation graph and its partitioner *)

Module Partition.

Inductive Op :=
  | placeholder
  | get_attr
  | call_function
  | call_method
  | call_module
  | output.

#[global] Instance Op_eq_dec : EqDecision Op.
Proof. solve_decision. Defined.

(** A [torch.fx.Node].  Nodes refer to each other by name: the graph
    is the arena in which [all_input_nodes] and [users] are resolved
    ([users] is an insertion-ordered dict in the source, kept here as
    the list of its keys). *)
Record Node := mkNode {
  name : string;
  op : Op;
  all_input_nodes : list string;
  users : list string
}.

(** [graph.nodes], in graph order. *)
Definition Graph := list Node.

Fixpoint node_of (g : Graph) (nm : string) : option Node :=
  match g with
  | [] => None
  | n :: g' => if decide (name n = nm) then Some n else node_of g' nm
  end.

Definition names (g : Graph) : list string := map name g.

Definition is_get_attr (g : Graph) (nm : string) : bool :=
  match node_of g nm with
  | Some n => bool_decide (op n = get_attr)
  | None => false
  end.

(** [check_assumption]: users and inputs mirror each other and hold
    no duplicates.  A reference that does not resolve in the arena
    fails the check. *)
Definition check_assumption (g : Graph) : bool :=
  forallb (λ node,
    forallb (λ user,
      match node_of g user with
      | Some u => bool_decide (name node ∈ all_input_nodes u)
      | None => false
      end) (users node)
    && forallb (λ input_node,
      match node_of g input_node with
      | Some i => bool_decide (name node ∈ users i)
      | None => false
      end) (all_input_nodes node)
    && bool_decide (NoDup (users node))
    && bool_decide (NoDup (all_input_nodes node))) g.

(** [len([node for node in node.all_input_nodes if node.op != "get_attr"])] *)
Definition indegree (g : Graph) (n : Node) : Z :=
  Z.of_nat (length (filter (λ i, is_get_attr g i = false) (all_input_nodes n))).

Definition init_remaining_indegrees (g : Graph) : gmap string Z :=
  foldl (λ m n, <[name n := indegree g n]> m) ∅ g.

Definition init_queue (g : Graph) (remaining_indegrees : gmap string Z)
    : list string :=
  names (filter (λ n, remaining_indegrees !! name n = Some 0%Z
                      ∧ op n ≠ get_attr) g).

(** The inner [for user in node.users] of the traversal. *)
Fixpoint visit_users (us : list string) (remaining_indegrees : gmap string Z)
    (queue : list string) : result (gmap string Z * list string) :=
  match us with
  | [] => Ok (remaining_indegrees, queue)
  | user :: us' =>
      match remaining_indegrees !! user with
      | None => Raise (KeyError user)
      | Some d =>
          let d' := (d - 1)%Z in
          visit_users us' (<[user := d']> remaining_indegrees)
            (if decide (d' = 0%Z) then queue ++ [user] else queue)
      end
  end.

Record KState := mkKState {
  partitions : list (list string);
  remaining_indegrees : gmap string Z;
  partition_index : nat;
  queue : list string
}.

(** [partitions[partition_index].append(node)] *)
Definition append_to (parts : list (list string)) (index : nat) (nm : string)
    : result (list (list string)) :=
  if decide (index < length parts)
  then Ok (alter (λ p, p ++ [nm]) index parts)
  else Raise IndexError.

(** One turn of [while len(queue) > 0]. *)
Definition pop_node (g : Graph) (target_nodes : list string) (node : string)
    (st : KState) : result KState :=
  let '(parts, index) :=
    if bool_decide (node ∈ target_nodes)
    then (partitions st ++ [[]], S (partition_index st))
    else (partitions st, partition_index st) in
  parts' ← append_to parts index node;
  match node_of g node with
  | None => Raise (KeyError node)
  | Some n =>
      '(rem, q) ← visit_users (users n) (remaining_indegrees st) (queue st);
      Ok (mkKState parts' rem index q)
  end.

Fixpoint traverse (clock : nat) (g : Graph) (target_nodes : list string)
    (st : KState) : result KState :=
  match queue st with
  | [] => Ok st
  | node :: q =>
      match clock with
      | O => Unfinished
      | S clock' =>
          st' ← pop_node g target_nodes node
                  (mkKState (partitions st) (remaining_indegrees st)
                            (partition_index st) q);
          traverse clock' g target_nodes st'
      end
  end.

(** Index of the first partition holding [user], as the
    [for index in range(len(partitions))] search finds it. *)
Definition partition_of (parts : list (list string)) (user : string)
    : option nat :=
  fst <$> list_find (λ p, user ∈ p) parts.

Definition list_min (l : list nat) : result nat :=
  match l with
  | [] => Raise (ValueError "min() arg is an empty sequence")
  | x :: l' => Ok (foldl Nat.min x l')
  end.

(** [partitions[partition_index].insert(0, node)] *)
Definition insert_front (parts : list (list string)) (index : nat)
    (nm : string) : result (list (list string)) :=
  if decide (index < length parts)
  then Ok (alter (cons nm) index parts)
  else Raise IndexError.

(** The second pass: constants join the earliest partition among
    their users. *)
Fixpoint attach_get_attrs (nodes : list Node) (parts : list (list string))
    : result (list (list string)) :=
  match nodes with
  | [] => Ok parts
  | node :: nodes' =>
      if decide (op node = get_attr) then
        let user_partitions := omap (partition_of parts) (users node) in
        index ← list_min user_partitions;
        parts' ← insert_front parts index (name node);
        attach_get_attrs nodes' parts'
      else attach_get_attrs nodes' parts
  end.

Definition topological_partition (g : Graph) (target_nodes : list string)
    : result (list (list string)) :=
  _ ← assert (check_assumption g);
  let rem := init_remaining_indegrees g in
  st ← traverse (length g) g target_nodes
         (mkKState [[]] rem 0 (init_queue g rem));
  parts ← attach_get_attrs g (partitions st);
  _ ← assert (bool_decide (list_to_set (concat parts)
                           =@{gset string} list_to_set (names g)));
  Ok parts.

(** The same function as [graph_resuming.py] has it: constants are
    ordinary sources of the traversal and there is no second pass. *)
Definition indegree_resuming (n : Node) : Z :=
  Z.of_nat (length (all_input_nodes n)).

Definition topological_partition_resuming (g : Graph)
    (target_nodes : list string) : result (list (list string)) :=
  _ ← assert (check_assumption g);
  let rem := foldl (λ m n, <[name n := indegree_resuming n]> m) ∅ g in
  st ← traverse (length g) g target_nodes
         (mkKState [[]] rem 0
            (names (filter (λ n, rem !! name n = Some 0%Z) g)));
  _ ← assert (bool_decide (list_to_set (concat (partitions st))
                           =@{gset string} list_to_set (names g)));
  Ok (partitions st).

(** *** Subgraph construction ([partition_graph]) *)

(** A subgraph as [partition_graph] records it.  [graph] holds the
    placeholders created for outside inputs followed by the copies of
    the partition's nodes; [output_dict] is the synthesized output
    node, present when the partition does not hold the graph's own
    output.  The generated ["code"] is the interpretation of these two
    fields ([forward_function] below).  The [users] of copied nodes
    are rebuilt by [torch.fx] and play no role afterwards; they are
    not tracked in the copies. *)
Record Subgraph := mkSubgraph {
  graph : list Node;
  output_dict : option (list string);
  input_names : list string;
  consumed_names : list string
}.

Definition op_of (g : Graph) (nm : string) : option Op := op <$> node_of g nm.

(** The set comprehension [new_input_nodes]; a Python set has no
    specified iteration order, the model enumerates it in the order
    left by [remove_dups]. *)
Definition new_input_nodes (g : Graph) (partition_nodes : list string)
    : list string :=
  remove_dups
    (mjoin ((λ node,
       match node_of g node with
       | Some n => filter (λ i, i ∉ partition_nodes) (all_input_nodes n)
       | None => []
       end) <$> partition_nodes)).

(** [subgraph.node_copy(node, lambda n: node_map[n])] for each node of
    the partition: an input that is not yet in [node_map] is a
    [KeyError]. *)
Fixpoint copy_nodes (g : Graph) (partition_nodes : list string)
    (node_map : list string) (copied : list Node) : result (list Node) :=
  match partition_nodes with
  | [] => Ok copied
  | node :: rest =>
      match node_of g node with
      | None => Raise (KeyError node)
      | Some n =>
          match list_find (λ i, i ∉ node_map) (all_input_nodes n) with
          | Some (_, missing) => Raise (KeyError missing)
          | None =>
              copy_nodes g rest (node_map ++ [node])
                (copied ++ [mkNode node (op n) (all_input_nodes n) []])
          end
      end
  end.

Definition has_outside_user (g : Graph) (partition_nodes : list string)
    (node : string) : bool :=
  match node_of g node with
  | Some n => bool_decide (Exists (λ user, user ∉ partition_nodes) (users n))
  | None => false
  end.

Definition make_subgraph (g : Graph) (partition_nodes : list string)
    : result Subgraph :=
  let inputs := new_input_nodes g partition_nodes in
  let placeholders := (λ i, mkNode i placeholder [] []) <$> inputs in
  nodes ← copy_nodes g partition_nodes inputs placeholders;
  let out :=
    if bool_decide (Exists (λ n, op n = output) nodes) then None
    else Some (filter (λ node, has_outside_user g partition_nodes node = true)
                 partition_nodes) in
  Ok (mkSubgraph nodes out
        (name <$> filter (λ n, op n = placeholder) nodes) []).

(** Index of the last subgraph that lists [input_name], found by the
    scan over [reversed(subgraphs)]. *)
Fixpoint last_reader (subgraphs : list Subgraph) (input_name : string)
    : option nat :=
  match subgraphs with
  | [] => None
  | sg :: rest =>
      match last_reader rest input_name with
      | Some k => Some (S k)
      | None => if decide (input_name ∈ input_names sg) then Some 0 else None
      end
  end.

Definition add_consumed (input_name : string) (sg : Subgraph) : Subgraph :=
  mkSubgraph (graph sg) (output_dict sg) (input_names sg)
    (consumed_names sg ++ [input_name]).

(** The loop that fills [consumed_names]; [all_input_names] is the
    enumeration of the set of input names the loop walks through. *)
Fixpoint populate_consumed_names (all_input_names : list string)
    (subgraphs : list Subgraph) : result (list Subgraph) :=
  match all_input_names with
  | [] => Ok subgraphs
  | input_name :: rest =>
      match last_reader subgraphs input_name with
      | Some k =>
          populate_consumed_names rest (alter (add_consumed input_name) k subgraphs)
      | None => Raise AssertionError
      end
  end.

Definition all_input_names (subgraphs : list Subgraph) : list string :=
  remove_dups (mjoin (input_names <$> subgraphs)).

Definition partition_graph (g : Graph) (parts : list (list string))
    : result (list Subgraph) :=
  subgraphs ← mapM (make_subgraph g) parts;
  populate_consumed_names (all_input_names subgraphs) subgraphs.

(** *** Execution *)

Section Execution.
(** Values flowing through the graph, and what the traced module
    does at each node: [attr] fetches a constant, [call] applies
    the node's operation to the values of its input nodes.
    [as_mapping] is the view of a value as a mapping, when it has
    one ([dict.update] needs it). *)
Context {V : Type}.
Variable attr : string → V.
Variable call : string → list V → V.
Variable as_mapping : V → option (gmap string V).

Inductive retval :=
  | Ret (v : V)
  | Dict (m : gmap string V)
  | PyNone.

(** Values of a node's inputs in the running environment. *)
Definition args_of (env : gmap string V) (inputs : list string)
    : result (list V) :=
  mapM (λ i, match env !! i with
             | Some v => Ok v
             | None => Raise (KeyError i)
             end) inputs.

(** Interpretation of a node list against keyword arguments: the
    body of the code generated for a graph. *)
Fixpoint run_nodes (nodes : list Node) (kwargs env : gmap string V)
    : result (retval + gmap string V) :=
  match nodes with
  | [] => Ok (inr env)
  | n :: rest =>
      match op n with
      | placeholder =>
          match kwargs !! name n with
          | Some v => run_nodes rest kwargs (<[name n := v]> env)
          | None => Raise (TypeError "missing required argument")
          end
      | get_attr => run_nodes rest kwargs (<[name n := attr (name n)]> env)
      | output =>
          vs ← args_of env (all_input_nodes n);
          Ok (inl (Ret (call (name n) vs)))
      | _ =>
          vs ← args_of env (all_input_nodes n);
          run_nodes rest kwargs (<[name n := call (name n) vs]> env)
      end
  end.

(** The forward pass of the traced, unpartitioned module. *)
Definition model_forward (g : Graph) (kwargs : gmap string V)
    : result retval :=
  r ← run_nodes g kwargs ∅;
  match r with
  | inl v => Ok v
  | inr _ => Ok PyNone
  end.

(** [forward_function(self.model, **inputs)] of a subgraph. *)
Definition forward_function (sg : Subgraph) (inputs : gmap string V)
    : result retval :=
  r ← run_nodes (graph sg) inputs ∅;
  match r with
  | inl v => Ok v
  | inr env =>
      match output_dict sg with
      | Some out =>
          vs ← args_of env out;
          Ok (Dict (list_to_map (zip out vs)))
      | None => Ok PyNone
      end
  end.

(** What the executor does to its cache, for the record. *)
Inductive event :=
  | Lookup (subgraph_index batch_index : nat) (key : string)
  | Delete (subgraph_index batch_index : nat) (key : string).

(** [{input_name: intermediates[input_name] for input_name in ...}] *)
Fixpoint gather (k b : nat) (input_names : list string)
    (intermediates inputs : gmap string V) (tr : list event)
    : list event * result (gmap string V) :=
  match input_names with
  | [] => (tr, Ok inputs)
  | nm :: rest =>
      match intermediates !! nm with
      | Some v =>
          gather k b rest intermediates (<[nm := v]> inputs)
            (tr ++ [Lookup k b nm])
      | None => (tr ++ [Lookup k b nm], Raise (KeyError nm))
      end
  end.

(** [for consumed_name in ...: del intermediates[consumed_name]] *)
Fixpoint release (k b : nat) (consumed_names : list string)
    (intermediates : gmap string V) (tr : list event)
    : list event * result (gmap string V) :=
  match consumed_names with
  | [] => (tr, Ok intermediates)
  | nm :: rest =>
      match intermediates !! nm with
      | Some _ =>
          release k b rest (delete nm intermediates) (tr ++ [Delete k b nm])
      | None => (tr, Raise (KeyError nm))
      end
  end.

(** [intermediates.update(subgraph_output)] *)
Definition update (intermediates : gmap string V) (out : retval)
    : result (gmap string V) :=
  match out with
  | Dict m => Ok (m ∪ intermediates)
  | Ret v =>
      match as_mapping v with
      | Some m => Ok (m ∪ intermediates)
      | None => Raise (TypeError "cannot convert dictionary update sequence")
      end
  | PyNone => Raise (TypeError "'NoneType' object is not iterable")
  end.

(** [PartitionedModel.forward]: positional arguments are ignored,
    the cache starts as a copy of the keyword arguments. *)
Fixpoint forward_from (subgraph_index : nat) (subgraphs : list Subgraph)
    (intermediates : gmap string V) : result retval :=
  match subgraphs with
  | [] => Ok PyNone
  | sg :: rest =>
      inputs ← (gather subgraph_index 0 (input_names sg) intermediates ∅ []).2;
      match rest with
      | _ :: _ =>
          out ← forward_function sg inputs;
          intermediates ← update intermediates out;
          intermediates ←
            (release subgraph_index 0 (consumed_names sg) intermediates []).2;
          forward_from (S subgraph_index) rest intermediates
      | [] => forward_function sg inputs
      end
  end.

Definition forward (subgraphs : list Subgraph) (kwargs : gmap string V)
    : result retval :=
  forward_from 0 subgraphs kwargs.

(** [PartitionedModel.forward_data]: subgraphs in the outer loop,
    batches in the inner one; each batch owns its cache, which the
    loop mutates in place. *)
Record DState := mkDState {
  batch_intermediates : list (gmap string V);
  batch_outputs : list (option retval);
  trace : list event
}.

Definition run_batch (last : bool) (k : nat) (sg : Subgraph) (b : nat)
    (st : DState) : DState * result unit :=
  match batch_intermediates st !! b with
  | None => (st, Raise IndexError)
  | Some intermediates =>
      let '(tr, inputs) :=
        gather k b (input_names sg) intermediates ∅ (trace st) in
      match inputs with
      | Ok inputs =>
          match forward_function sg inputs with
          | Ok subgraph_output =>
              let '(tr, released) :=
                release k b (consumed_names sg) intermediates tr in
              match released with
              | Ok intermediates =>
                  if last then
                    (mkDState (batch_intermediates st)
                       (<[b := Some subgraph_output]> (batch_outputs st)) tr,
                     Ok tt)
                  else
                    match update intermediates subgraph_output with
                    | Ok intermediates =>
                        (mkDState (<[b := intermediates]> (batch_intermediates st))
                           (batch_outputs st) tr, Ok tt)
                    | Raise e =>
                        (mkDState (<[b := intermediates]> (batch_intermediates st))
                           (batch_outputs st) tr, Raise e)
                    | Unfinished => (st, Unfinished)
                    end
              | Raise e => (mkDState (batch_intermediates st) (batch_outputs st) tr, Raise e)
              | Unfinished => (st, Unfinished)
              end
          | Raise e => (mkDState (batch_intermediates st) (batch_outputs st) tr, Raise e)
          | Unfinished => (st, Unfinished)
          end
      | Raise e => (mkDState (batch_intermediates st) (batch_outputs st) tr, Raise e)
      | Unfinished => (st, Unfinished)
      end
  end.

Fixpoint run_batches (last : bool) (k : nat) (sg : Subgraph)
    (batch_indices : list nat) (st : DState) : DState * result unit :=
  match batch_indices with
  | [] => (st, Ok tt)
  | b :: rest =>
      match run_batch last k sg b st with
      | (st', Ok _) => run_batches last k sg rest st'
      | failed => failed
      end
  end.

Fixpoint run_subgraphs (k : nat) (subgraphs : list Subgraph) (st : DState)
    : DState * result unit :=
  match subgraphs with
  | [] => (st, Ok tt)
  | sg :: rest =>
      match run_batches (bool_decide (rest = [])) k sg
              (seq 0 (length (batch_intermediates st))) st with
      | (st', Ok _) => run_subgraphs (S k) rest st'
      | failed => failed
      end
  end.

(** [mask] stands for [apply_pad_mask_to_batch] when [mask_padding]
    is set and for the identity otherwise. *)
Definition forward_data (mask : gmap string V → gmap string V)
    (subgraphs : list Subgraph) (dataloader : list (gmap string V))
    : DState * result (list (option retval)) :=
  let st0 := mkDState (mask <$> dataloader)
               (replicate (length dataloader) None) [] in
  match run_subgraphs 0 subgraphs st0 with
  | (st, Ok _) => (st, Ok (batch_outputs st))
  | (st, Raise e) => (st, Raise e)
  | (st, Unfinished) => (st, Unfinished)
  end.

End Execution.

(** [init_forward] after tracing: partition, then build subgraphs. *)
Definition init_forward (g : Graph) (all_target_nodes : list string)
    : result (list Subgraph) :=
  parts ← topological_partition g all_target_nodes;
  partition_graph g parts.

(** *** Sample graphs *)

(** A head that is computed but not returned:
    [h = relu(x); aux = head(relu(h)); return h]. *)
Definition g_aux_head : Graph :=
  [ mkNode "x" placeholder [] ["h"];
    mkNode "h" call_function ["x"] ["r"; "out"];
    mkNode "r" call_function ["h"] ["head"];
    mkNode "head" call_module ["r"] [];
    mkNode "out" output ["h"] [] ].


(** [x -> t(Linear) -> y = t + c -> output], [c] a constant. *)
Definition g_const : Graph :=
  [ mkNode "x" placeholder [] ["t"];
    mkNode "t" call_module ["x"] ["y"];
    mkNode "c" get_attr [] ["y"];
    mkNode "y" call_function ["t"; "c"] ["out"];
    mkNode "out" output ["y"] [] ].

(** A constant nobody reads. *)
Definition g_unused_const : Graph :=
  [ mkNode "x" placeholder [] ["out"];
    mkNode "c" get_attr [] [];
    mkNode "out" output ["x"] [] ].

End Partition.

(** ** Hessian accumulation and the GPTQ quantizer

    Tensors of numbers are read in exact arithmetic: entries are real
    numbers, a dense matrix is the function giving its entries, and
    its shape is carried beside it.  Activations keep their nesting,
    since their rank and leading dimension decide how they are
    counted.  Conversions between float types are the identity. *)

Module GPTQ.

Definition Matrix := nat → nat → R.
Definition Vector := nat → R.

#[global] Instance R_eq_dec : EqDecision R := Req_EM_T.

(** Sum of [f 0 .. f (n-1)]. *)
Definition sum_n (n : nat) (f : nat → R) : R :=
  foldr Rplus 0%R (f <$> seq 0 n).

(** A layer input: [(positions, features)] or
    [(batch, positions, features)]. *)
Inductive Tensor :=
  | Rank2 (rows : list (list R))
  | Rank3 (samples : list (list (list R))).

Inductive LayerKind := Linear | Conv1D | Conv2d | OtherLayer.

Definition is_linear (k : LayerKind) : bool :=
  match k with
  | Linear | Conv1D => true
  | _ => false
  end.

(** [if len(inp.shape) == 2: inp = inp.unsqueeze(0)] *)
Definition unsqueeze (inp : Tensor) : list (list (list R)) :=
  match inp with
  | Rank2 rows => [rows]
  | Rank3 samples => samples
  end.

(** [math.sqrt(c) * inp] on the flattened rows. *)
Definition scale_rows (c : R) (rows : list (list R)) : list (list R) :=
  map (map (Rmult c)) rows.

(** [inp.matmul(inp.t())] for [inp] the transpose of the flattened
    [(positions, features)] rows. *)
Definition gram (rows : list (list R)) : Matrix :=
  λ a b, foldr (λ x acc, (nth a x 0 * nth b x 0 + acc)%R) 0%R rows.

(** [add_batch] of [gptq_quantize.py]. *)
Definition add_batch (H : Matrix) (nsamples : nat) (module : LayerKind)
    (inp : Tensor) : result (Matrix * nat) :=
  let inp := unsqueeze inp in
  let tmp := length inp in
  if decide (nsamples + tmp = 0) then Raise ZeroDivisionError else
  let H : Matrix := λ a b, (H a b * (INR nsamples / INR (nsamples + tmp)))%R in
  let nsamples := nsamples + tmp in
  if is_linear module then
    let inp := scale_rows (sqrt (2 / INR nsamples)) (concat inp) in
    Ok ((λ a b, (H a b + gram inp a b)%R) : Matrix, nsamples)
  else Raise (RuntimeError "t() expects a tensor with <= 2 dimensions").

(** [compute_hessian] *)
Definition compute_hessian (inp : Tensor) (module_class : LayerKind)
    : result Matrix :=
  let inp := unsqueeze inp in
  let nsamples := length inp in
  if decide (nsamples = 0) then Raise ZeroDivisionError else
  if is_linear module_class then
    Ok (gram (scale_rows (sqrt (2 / INR nsamples)) (concat inp)))
  else Raise (RuntimeError "t() expects a tensor with <= 2 dimensions").

Module QuantizationStrategy.
Inductive t := TENSOR | CHANNEL | GROUP | BLOCK | TOKEN.
End QuantizationStrategy.

Module ActivationOrdering.
Inductive t := GROUP | WEIGHT.
End ActivationOrdering.

#[global] Instance QuantizationStrategy_eq_dec : EqDecision QuantizationStrategy.t.
Proof. solve_decision. Defined.

#[global] Instance ActivationOrdering_eq_dec : EqDecision ActivationOrdering.t.
Proof. solve_decision. Defined.

Record QuantizationArgs := mkQuantizationArgs {
  strategy : QuantizationStrategy.t;
  actorder : option ActivationOrdering.t;
  group_size : nat;
  num_bits : nat;
  symmetric : bool
}.

(** [altered_qargs]: a copy with the strategy set to [CHANNEL]. *)
Definition altered_qargs (quant_args : QuantizationArgs) : QuantizationArgs :=
  mkQuantizationArgs QuantizationStrategy.CHANNEL (actorder quant_args)
    (group_size quant_args) (num_bits quant_args) (symmetric quant_args).

(** A 2-D tensor with its shape. *)
Record Tensor2 := mkTensor2 {
  nrows : nat;
  ncols : nat;
  entry : Matrix
}.

Definition transpose (t : Tensor2) : Tensor2 :=
  mkTensor2 (ncols t) (nrows t) (λ r c, entry t c r).

(** The canonical [(out_features, in_features)] layout.  A [Conv2d]
    weight is given by its [flatten(1)] view. *)
Definition standardize (module_class : LayerKind) (W : Tensor2) : Tensor2 :=
  match module_class with
  | Conv1D => transpose W
  | _ => W
  end.

(** Which part of the scale and zero point a column is quantized
    with: all of it, or column [j] ([scale[:, j]]). *)
Inductive qslice := Whole | Col (j : nat).

(** Position of [j] in [l]. *)
Fixpoint position (j : nat) (l : list nat) : nat :=
  match l with
  | [] => 0
  | x :: l' => if decide (x = j) then 0 else S (position j l')
  end.

(** [torch.argsort(perm)] for a permutation [perm] of [0 .. n-1]: the
    keys are distinct, the result is the inverse permutation. *)
Definition argsort_permutation (perm : list nat) : list nat :=
  (λ j, position j perm) <$> seq 0 (length perm).

(** [x[perm]] on an index vector. *)
Definition take_indices (x perm : list nat) : list nat :=
  (λ p, nth p x 0) <$> perm.

(** [W[:, perm]] and [H[perm][:, perm]]. *)
Definition permute_columns (W : Matrix) (perm : list nat) : Matrix :=
  λ r c, W r (nth c perm 0).

Definition permute_both (H : Matrix) (perm : list nat) : Matrix :=
  λ a b, H (nth a perm 0) (nth b perm 0).

(** [(~torch.isclose(W, 0)).float()], with the default tolerances. *)
Definition nz_mask (W : Matrix) : Matrix :=
  λ r c, if Rle_dec (Rabs (W r c)) (/ 100000000) then 0%R else 1%R.

(** [dead = torch.diag(H) == 0; H[dead, dead] = 1; W[:, dead] = 0] *)
Definition dead (H : Matrix) (c : nat) : bool := bool_decide (H c c = 0%R).

Definition mask_dead_hessian (H : Matrix) : Matrix :=
  λ a b, if decide (a = b) then (if dead H a then 1%R else H a b) else H a b.

Definition mask_dead_weight (H W : Matrix) : Matrix :=
  λ r c, if dead H c then 0%R else W r c.

(** [percdamp * torch.mean(torch.diag(H))], then [H[diag, diag] += damp]. *)
Definition dampen (n : nat) (H : Matrix) (percdamp : R) : Matrix :=
  let damp := (percdamp * (sum_n n (λ i, H i i) / INR n))%R in
  λ a b, if decide (a = b) then (H a b + damp)%R else H a b.

Definition guidance : string :=
  "Failed to invert hessian due to numerical instability. Consider increasing GPTQModifier.dampening_frac, increasing the number of calibration samples, or shuffling the calibration dataset".

Fixpoint fold_result {A B} (f : B → A → result A) (l : list B) (a : A)
    : result A :=
  match l with
  | [] => Ok a
  | x :: l' => a' ← f x a; fold_result f l' a'
  end.

(** [range(0, num_columns, blocksize)] *)
Definition block_starts (num_columns blocksize : nat) : result (list nat) :=
  if decide (blocksize = 0) then Raise (ValueError "range() arg 3 must not be zero")
  else Ok ((λ k, k * blocksize) <$> seq 0 ((num_columns + blocksize - 1) / blocksize)).

Section Quantizer.
(** What the quantizer takes from its collaborators.  [QParams] is a
    scale together with its zero point; [observer] computes them for
    a weight, [reobserve qp g rows cols] is [qp] with column [g]
    replaced by the parameters observed on the columns [cols];
    [fake_quantize] is the quantize-dequantize round trip of a
    column.  [cholesky], [cholesky_inverse] and [cholesky_upper] are
    the factorizations of the tensor runtime, [None] standing for
    its [_LinAlgError]; [argsort_descending n v] is
    [torch.argsort(v, descending=True)] on [n] entries.
    [tensor_sparsity] and [SPARSITY_THRESHOLD] are the helpers of
    the package that the two files import. *)
Context {QParams : Type}.
Variable observer : nat → nat → Matrix → QuantizationArgs → QParams.
Variable reobserve : QParams → nat → nat → list Vector → QParams.
Variable fake_quantize :
  nat → Vector → QParams → qslice → QuantizationArgs → Vector.
Variable cholesky : nat → Matrix → option Matrix.
Variable cholesky_inverse : nat → Matrix → Matrix.
Variable cholesky_upper : nat → Matrix → option Matrix.
Variable argsort_descending : nat → Vector → list nat.
Variable tensor_sparsity : nat → nat → Matrix → R.
Variable SPARSITY_THRESHOLD : R.

(** [invert_hessian] *)
Definition invert_hessian (n : nat) (H : Matrix) (percdamp : R)
    : result Matrix :=
  let H := dampen n H percdamp in
  match cholesky n H with
  | None => Raise LinAlgError
  | Some H =>
      let H := cholesky_inverse n H in
      match cholesky_upper n H with
      | None => Raise LinAlgError
      | Some H => Ok H
      end
  end.

(** [_apply_activation_ordering] *)
Definition apply_activation_ordering (n : nat) (W H : Matrix)
    : Matrix * Matrix * list nat :=
  let perm := argsort_descending n (λ i, H i i) in
  (permute_columns W perm, permute_both H perm, perm).

(** The scale, zero point, group index and ordering the block loop
    starts from. *)
Record Prepared := mkPrepared {
  pW : Matrix;
  pH : Matrix;
  pqp : QParams;
  pg_idx : list nat;
  pperm : option (list nat)
}.

Definition prepare (num_rows num_columns : nat) (W H : Matrix)
    (quant_args : QuantizationArgs) : result Prepared :=
  match strategy quant_args with
  | QuantizationStrategy.GROUP =>
      if decide (group_size quant_args = 0) then Raise ZeroDivisionError else
      let g_idx := (λ c, c / group_size quant_args) <$> seq 0 num_columns in
      match actorder quant_args with
      | Some ActivationOrdering.GROUP =>
          let '(W, H, perm) := apply_activation_ordering num_columns W H in
          let qp := observer num_rows num_columns W quant_args in
          Ok (mkPrepared W H qp g_idx (Some perm))
      | Some ActivationOrdering.WEIGHT =>
          let qp := observer num_rows num_columns W quant_args in
          let '(W, H, perm) := apply_activation_ordering num_columns W H in
          Ok (mkPrepared W H qp (take_indices g_idx perm) (Some perm))
      | None =>
          Ok (mkPrepared W H (observer num_rows num_columns W quant_args)
                g_idx None)
      end
  | _ =>
      Ok (mkPrepared W H (observer num_rows num_columns W quant_args) [] None)
  end.

(** [W_nz_mask], or [None] *)
Definition sparsity_mask (num_rows num_columns : nat) (W : Matrix)
    : option Matrix :=
  if Rle_dec SPARSITY_THRESHOLD (tensor_sparsity num_rows num_columns W)
  then Some (nz_mask W) else None.

Definition masked (mask : option Matrix) (x : R) (r c : nat) : R :=
  match mask with
  | Some m => (x * m r c)%R
  | None => x
  end.

(** *** The block loop *)

Record Block := mkBlock {
  W1 : Matrix;
  Q1 : Matrix;
  Err1 : Matrix;
  losses1 : Matrix;
  bqp : QParams
}.

Section Loop.
Variable quant_args : QuantizationArgs.
Variable g_idx : list nat.
Variable Hinv : Matrix.
Variable W_nz_mask : option Matrix.
Variable num_rows num_columns blocksize : nat.
(** The two files differ in where the error term [w] is read and
    in whether group parameters are observed again. *)
Variable error_column : Matrix → nat → result Vector.
Variable refresh : Matrix → QParams → nat → nat → QParams.

(** Body of [for i in range(count)]. *)
Definition quantize_column (W : Matrix) (i1 count i : nat) (st : Block)
    : result Block :=
  w ← error_column (W1 st) i;
  let d := Hinv (i1 + i) (i1 + i) in
  let q : Vector := λ r, W1 st r i in
  quantized ←
    match strategy quant_args return result (QParams * Vector) with
    | QuantizationStrategy.TENSOR =>
        Ok (bqp st, fake_quantize num_rows q (bqp st) Whole quant_args)
    | QuantizationStrategy.CHANNEL =>
        Ok (bqp st, fake_quantize num_rows q (bqp st) (Col 0) quant_args)
    | QuantizationStrategy.GROUP =>
        let column_idx := i1 + i in
        let group_index := nth column_idx g_idx 0 in
        let qp := refresh W (bqp st) column_idx group_index in
        Ok (qp, fake_quantize num_rows q qp (Col group_index)
                  (altered_qargs quant_args))
    | _ => Raise (ValueError "Quantization strategy is not supported for GPTQ")
    end;
  let qp := quantized.1 in
  let q := quantized.2 in
  let err1 : Vector := λ r, ((w r - q r) / d)%R in
  Ok (mkBlock
        (λ r c, if decide (i ≤ c < count)
                then (W1 st r c
                      - masked W_nz_mask
                          (err1 r * Hinv (i1 + i)%nat (i1 + c)%nat)
                          r (i1 + c)%nat)%R
                else W1 st r c)
        (λ r c, if decide (c = i) then q r else Q1 st r c)
        (λ r c, if decide (c = i) then err1 r else Err1 st r c)
        (λ r c, if decide (c = i) then ((w r - q r) ^ 2 / d ^ 2)%R
                else losses1 st r c)
        qp).

Record Outer := mkOuter {
  oW : Matrix;
  olosses : Vector;
  oqp : QParams
}.

(** Body of [for i1 in range(0, num_columns, blocksize)]. *)
Definition quantize_block (i1 : nat) (st : Outer) : result Outer :=
  let i2 := (i1 + blocksize) `min` num_columns in
  let count := i2 - i1 in
  let zero : Matrix := λ _ _, 0%R in
  blk ← fold_result (quantize_column (oW st) i1 count) (seq 0 count)
          (mkBlock (λ r c, oW st r (i1 + c)) zero zero zero (oqp st));
  Ok (mkOuter
        (λ r c,
           if decide (i1 ≤ c < i2) then Q1 blk r (c - i1)
           else if decide (i2 ≤ c < num_columns)
           then (oW st r c
                 - masked W_nz_mask
                     (sum_n count (λ i, (Err1 blk r i * Hinv (i1 + i)%nat c)%R))
                     r c)%R
           else oW st r c)
        (λ r, (olosses st r + sum_n count (λ c, losses1 blk r c) / 2)%R)
        (bqp blk)).

Definition quantize_blocks (W : Matrix) (qp : QParams) : result Outer :=
  starts ← block_starts num_columns blocksize;
  fold_result quantize_block starts (mkOuter W (λ _, 0%R) qp).
End Loop.

(** *** [quantize_weight] of [gptq_quantize.py] *)

(** [w = weight_original[:, i]] *)
Definition original_column (weight_original : option Tensor2)
    (_ : Matrix) (i : nat) : result Vector :=
  match weight_original with
  | None => Raise (TypeError "'NoneType' object is not subscriptable")
  | Some wo =>
      if decide (i < ncols wo) then Ok (λ r, entry wo r i)
      else Raise IndexError
  end.

Record Quantized := mkQuantized {
  loss : R;
  quantized_weight : Tensor2;
  scale_zero_point : QParams;
  g_idx_out : option (list nat)
}.

Definition quantize_weight (weight : Tensor2) (inp : Tensor)
    (quant_args : QuantizationArgs) (blocksize : nat) (percdamp : R)
    (module_class : LayerKind) (weight_original : option Tensor2)
    : result Quantized :=
  H ← compute_hessian inp module_class;
  let W := standardize module_class weight in
  let num_rows := nrows W in
  let num_columns := ncols W in
  p ← prepare num_rows num_columns (entry W) H quant_args;
  let W_nz_mask := sparsity_mask num_rows num_columns (pW p) in
  let H := mask_dead_hessian (pH p) in
  let W := mask_dead_weight (pH p) (pW p) in
  Hinv ← invert_hessian num_columns H percdamp;
  out ← quantize_blocks quant_args (pg_idx p) Hinv W_nz_mask num_rows
          num_columns blocksize (original_column weight_original)
          (λ _ qp _ _, qp) W (pqp p);
  let '(W, g_idx) :=
    match strategy quant_args, actorder quant_args, pperm p with
    | QuantizationStrategy.GROUP, Some ActivationOrdering.WEIGHT, Some perm =>
        (permute_columns (oW out) (argsort_permutation perm), None)
    | QuantizationStrategy.GROUP, Some ActivationOrdering.GROUP, Some perm =>
        let invperm := argsort_permutation perm in
        (permute_columns (oW out) invperm,
         Some (take_indices (pg_idx p) invperm))
    | _, _, _ => (oW out, None)
    end in
  let W := standardize module_class (mkTensor2 num_rows num_columns W) in
  Ok (mkQuantized (sum_n num_rows (olosses out)) W (oqp out) g_idx).

(** *** [GPTQWrapper] of [gptq_wrapper.py] *)

Record GPTQWrapper := mkGPTQWrapper {
  layer : LayerKind;
  rows : nat;
  columns : nat;
  H : Matrix;
  nsamples : nat;
  weight : Tensor2;
  quantization_scheme : option QuantizationArgs;
  weight_scale_zero_point : option QParams;
  weight_g_idx : option (list nat)
}.

Definition set_H (self : GPTQWrapper) (H : Matrix) : GPTQWrapper :=
  mkGPTQWrapper (layer self) (rows self) (columns self) H (nsamples self)
    (weight self) (quantization_scheme self) (weight_scale_zero_point self)
    (weight_g_idx self).

Definition set_nsamples (self : GPTQWrapper) (n : nat) : GPTQWrapper :=
  mkGPTQWrapper (layer self) (rows self) (columns self) (H self) n
    (weight self) (quantization_scheme self) (weight_scale_zero_point self)
    (weight_g_idx self).

(** [GPTQWrapper.add_batch]: the wrapper is returned as the call
    leaves it, also when the call raises. *)
Definition wrapper_add_batch (self : GPTQWrapper) (inp : Tensor)
    : GPTQWrapper * result unit :=
  let inp := unsqueeze inp in
  let tmp := length inp in
  if decide (nsamples self + tmp = 0) then (self, Raise ZeroDivisionError) else
  let self :=
    set_H self (λ a b, (H self a b
                        * (INR (nsamples self) / INR (nsamples self + tmp)))%R) in
  let self := set_nsamples self (nsamples self + tmp) in
  if is_linear (layer self) then
    let inp := scale_rows (sqrt (2 / INR (nsamples self))) (concat inp) in
    (set_H self (λ a b, (H self a b + gram inp a b)%R), Ok tt)
  else (self, Raise (RuntimeError "t() expects a tensor with <= 2 dimensions")).

(** The forward hook registered by [LayerCompressor.pre_compress]
    calls [add_batch] once for every calibration batch. *)
Fixpoint calibrate (self : GPTQWrapper) (batches : list Tensor)
    : GPTQWrapper * result unit :=
  match batches with
  | [] => (self, Ok tt)
  | inp :: rest =>
      match wrapper_add_batch self inp with
      | (self, Ok _) => calibrate self rest
      | failed => failed
      end
  end.

(** [w = W1[:, i]] *)
Definition working_column (W1 : Matrix) (i : nat) : result Vector :=
  Ok (λ r, W1 r i).

(** The update of a group's parameters at the first column of the
    group, from the columns [W[:, g_idx == group_index]]. *)
Definition refresh_group (quant_args : QuantizationArgs) (g_idx : list nat)
    (num_rows num_columns : nat) (W : Matrix) (qp : QParams)
    (column_idx group_index : nat) : QParams :=
  if bool_decide (actorder quant_args ≠ Some ActivationOrdering.WEIGHT
                  ∧ column_idx `mod` group_size quant_args = 0)
  then reobserve qp group_index num_rows
         ((λ c, (λ r, W r c) : Vector)
            <$> filter (λ c, nth c g_idx 0 = group_index) (seq 0 num_columns))
  else qp.

(** The [try] block of [compress]: the wrapper's Hessian as each
    step leaves it, and the inverse or the [ValueError] raised in
    place of the runtime's error. *)
Definition invert_in_place (self : GPTQWrapper) (percdamp : R)
    : GPTQWrapper * result Matrix :=
  let self := set_H self (dampen (columns self) (H self) percdamp) in
  match cholesky (columns self) (H self) with
  | None => (self, Raise (ValueError guidance))
  | Some L =>
      let self := set_H self (cholesky_inverse (columns self) L) in
      match cholesky_upper (columns self) (H self) with
      | None => (self, Raise (ValueError guidance))
      | Some U => (set_H self U, Ok U)
      end
  end.

Definition compress (self : GPTQWrapper) (blocksize : nat) (percdamp : R)
    : GPTQWrapper * result unit :=
  match quantization_scheme self with
  | None => (self, Ok tt)
  | Some quant_args =>
      let W := standardize (layer self) (weight self) in
      match prepare (rows self) (columns self) (entry W) (H self) quant_args with
      | Raise e => (self, Raise e)
      | Unfinished => (self, Unfinished)
      | Ok p =>
          let W_nz_mask := sparsity_mask (rows self) (columns self) (pW p) in
          let self := set_H self (mask_dead_hessian (pH p)) in
          let W := mask_dead_weight (pH p) (pW p) in
          match invert_in_place self percdamp with
          | (self, Raise e) => (self, Raise e)
          | (self, Unfinished) => (self, Unfinished)
          | (self, Ok Hinv) =>
              match quantize_blocks quant_args (pg_idx p) Hinv W_nz_mask
                      (rows self) (columns self) blocksize working_column
                      (refresh_group quant_args (pg_idx p) (rows self)
                         (columns self)) W (pqp p) with
              | Raise e => (self, Raise e)
              | Unfinished => (self, Unfinished)
              | Ok out =>
                  let '(W, g_idx) :=
                    match strategy quant_args, actorder quant_args, pperm p with
                    | QuantizationStrategy.GROUP,
                      Some ActivationOrdering.WEIGHT, Some perm =>
                        (permute_columns (oW out) (argsort_permutation perm),
                         weight_g_idx self)
                    | QuantizationStrategy.GROUP,
                      Some ActivationOrdering.GROUP, Some perm =>
                        let invperm := argsort_permutation perm in
                        (permute_columns (oW out) invperm,
                         Some (take_indices (pg_idx p) invperm))
                    | _, _, _ => (oW out, weight_g_idx self)
                    end in
                  let W := standardize (layer self)
                             (mkTensor2 (rows self) (columns self) W) in
                  (mkGPTQWrapper (layer self) (rows self) (columns self)
                     (H self) (nsamples self) W (quantization_scheme self)
                     (Some (oqp out)) g_idx, Ok tt)
              end
          end
      end
  end.

End Quantizer.

(** *** A reference runtime

    The factorizations as the textbook algorithms compute them in
    exact arithmetic, to run the quantizer on concrete inputs. *)

(** Column [j] of the lower Cholesky factor, from the columns to its
    left; the factorization fails when a pivot is not positive. *)
Fixpoint cholesky_columns (js : list nat) (A L : Matrix) : option Matrix :=
  match js with
  | [] => Some L
  | j :: js' =>
      let s := (A j j - sum_n j (λ k, L j k * L j k))%R in
      if Rlt_dec 0 s then
        cholesky_columns js' A
          (λ r c,
             if decide (c = j) then
               if decide (r < j) then 0%R
               else if decide (r = j) then sqrt s
               else ((A r j - sum_n j (λ k, L r k * L j k)) / sqrt s)%R
             else L r c)
      else None
  end.

Definition cholesky_ref (n : nat) (A : Matrix) : option Matrix :=
  cholesky_columns (seq 0 n) A (λ _ _, 0%R).

(** Rows of the inverse of a lower-triangular matrix, by forward
    substitution. *)
Fixpoint lower_inverse_rows (rs : list nat) (L X : Matrix) : Matrix :=
  match rs with
  | [] => X
  | r :: rs' =>
      lower_inverse_rows rs' L
        (λ a c,
           if decide (a = r) then
             (((if decide (r = c) then 1 else 0)
               - sum_n r (λ k, L r k * X k c)) / L r r)%R
           else X a c)
  end.

(** [(L Lᵀ)⁻¹] from [L]. *)
Definition cholesky_inverse_ref (n : nat) (L : Matrix) : Matrix :=
  let X := lower_inverse_rows (seq 0 n) L (λ _ _, 0%R) in
  λ a b, sum_n n (λ k, X k a * X k b)%R.

(** The upper factor is the transpose of the lower one. *)
Definition cholesky_upper_ref (n : nat) (A : Matrix) : option Matrix :=
  (λ L : Matrix, (λ r c, L c r) : Matrix) <$> cholesky_ref n A.

End GPTQ.

(** * Properties *)

(** ** The partitioner *)

Module PartitionFacts.
Import Partition.

Lemma bind_Ok {A B} (m : result A) (f : A → result B) (b : B) :
  m ≫= f = Ok b → ∃ a, m = Ok a ∧ f a = Ok b.
Proof. destruct m as [a| |]; simpl; [eauto|done|done]. Qed.

Lemma assert_Ok (b : bool) (u : unit) : assert b = Ok u → b = true.
Proof. by destruct b. Qed.

Ltac inv_bind H :=
  repeat match type of H with
  | _ ≫= _ = Ok _ =>
      let a := fresh "a" in
      let Ha := fresh "Hstep" in
      apply bind_Ok in H as (a & Ha & H)
  end.

(** *** The arena *)

Lemma node_of_Some g nm n : node_of g nm = Some n → n ∈ g ∧ name n = nm.
Proof.
  induction g as [|m g IH]; simpl; [done|].
  case_decide as Hm.
  - intros [= ->]. split; [left|done].
  - intros [? ?]%IH. split; [by right|done].
Qed.

Lemma node_of_None g nm : node_of g nm = None ↔ nm ∉ names g.
Proof.
  induction g as [|m g IH]; simpl.
  - split; [intros _; apply not_elem_of_nil|done].
  - rewrite not_elem_of_cons. case_decide as Hm.
    + split; [done|]. intros [Hne _]. by destruct Hne.
    + rewrite IH. split; [by intros ?; split|by intros [_ ?]].
Qed.

Lemma node_of_elem g n : NoDup (names g) → n ∈ g → node_of g (name n) = Some n.
Proof.
  induction g as [|m g IH]; simpl; intros Hnd Hin.
  - by apply elem_of_nil in Hin.
  - apply NoDup_cons in Hnd as [Hm Hnd].
    apply elem_of_cons in Hin as [->|Hin]; [by rewrite decide_True|].
    rewrite decide_False; [by apply IH|].
    intros Heq. apply Hm. rewrite Heq. by apply list_elem_of_fmap_2.
Qed.

Lemma node_of_is_Some g nm : nm ∈ names g → is_Some (node_of g nm).
Proof.
  intros Hin. destruct (node_of g nm) eqn:E; [eauto|].
  by apply node_of_None in E.
Qed.

Lemma is_get_attr_elem g n :
  NoDup (names g) → n ∈ g → is_get_attr g (name n) = bool_decide (op n = get_attr).
Proof. intros Hnd Hin. unfold is_get_attr. by rewrite node_of_elem. Qed.

(** *** Flattening partitions *)

Lemma concat_alter {A} (f : list A → list A) (x : A) (i : nat)
    (parts : list (list A)) :
  (∀ p, f p ≡ₚ x :: p) → i < length parts →
  concat (alter f i parts) ≡ₚ x :: concat parts.
Proof.
  intros Hf. revert i. induction parts as [|p parts IH]; intros i Hi; simpl in *.
  - lia.
  - destruct i as [|i].
    + change (f p ++ concat parts ≡ₚ x :: p ++ concat parts). by rewrite Hf.
    + change (p ++ concat (alter f i parts) ≡ₚ x :: p ++ concat parts).
      rewrite IH by lia. by rewrite Permutation_middle.
Qed.

Lemma elem_of_concat {A} (x : A) (parts : list (list A)) :
  x ∈ concat parts ↔ ∃ p, p ∈ parts ∧ x ∈ p.
Proof.
  induction parts as [|q parts IH]; simpl.
  - split; [by intros ?%elem_of_nil|by intros (? & ?%elem_of_nil & _)].
  - rewrite elem_of_app, IH. split.
    + intros [?|(p & ? & ?)]; [exists q; split; [left|done]|exists p; split; [by right|done]].
    + intros (p & [->|?]%elem_of_cons & ?); [by left|right; eauto].
Qed.

Lemma append_to_Ok parts index nm parts' :
  append_to parts index nm = Ok parts' →
  index < length parts ∧ parts' = alter (λ p, p ++ [nm]) index parts.
Proof. unfold append_to. case_decide; naive_solver. Qed.

Lemma insert_front_Ok parts index nm parts' :
  insert_front parts index nm = Ok parts' →
  index < length parts ∧ parts' = alter (cons nm) index parts.
Proof. unfold insert_front. case_decide; naive_solver. Qed.

(** *** What the traversal keeps true *)

Section Traversal.
Context (g : Graph) (target_nodes : list string).

(** [placed] lists the nodes already assigned to a partition.  A
    node that was queued has a counter that will never be zero
    again, and so has every constant. *)
Record kinv (placed : list string) (rem : gmap string Z)
    (q : list string) : Prop := {
  kinv_nodup : NoDup (placed ++ q);
  kinv_done : ∀ n, n ∈ placed ++ q → ∃ d, rem !! n = Some d ∧ (d ≤ 0)%Z;
  kinv_const : ∀ n d, is_get_attr g n = true → rem !! n = Some d → (d ≤ 0)%Z;
  kinv_nonconst : ∀ n, n ∈ placed ++ q → is_get_attr g n = false;
  kinv_dom : ∀ n, is_Some (rem !! n) → n ∈ names g
}.

Lemma kinv_perm placed placed' rem q :
  placed ≡ₚ placed' → kinv placed rem q → kinv placed' rem q.
Proof.
  intros Hp [H1 H2 H3 H4 H5]. split; try done.
  - by rewrite <- Hp.
  - intros n Hn. apply H2. by rewrite Hp.
  - intros n Hn. apply H4. by rewrite Hp.
Qed.

Lemma kinv_pop placed rem node q :
  kinv placed rem (node :: q) → kinv (placed ++ [node]) rem q.
Proof.
  intros [H1 H2 H3 H4 H5]. split; try done.
  - by rewrite <- app_assoc.
  - intros x Hx. apply H2. by rewrite <- app_assoc in Hx.
  - intros x Hx. apply H4. by rewrite <- app_assoc in Hx.
Qed.

Lemma visit_users_kinv placed us rem q rem' q' :
  kinv placed rem q → visit_users us rem q = Ok (rem', q') →
  kinv placed rem' q'.
Proof.
  revert rem q. induction us as [|u us IH]; intros rem q Hinv; simpl.
  - by intros [= <- <-].
  - destruct (rem !! u) as [d|] eqn:Hu; [|done].
    intros Hv. eapply IH; [|exact Hv]. clear IH Hv.
    destruct Hinv as [H1 H2 H3 H4 H5].
    assert (Hlook : ∀ n e, <[u := (d - 1)%Z]> rem !! n = Some e →
              ∃ e', rem !! n = Some e' ∧ (e ≤ e')%Z).
    { intros n e. destruct (decide (u = n)) as [->|Hne].
      - rewrite lookup_insert_eq. intros [= <-]. exists d. split; [done|lia].
      - rewrite lookup_insert_ne by done. intros ->. exists e. split; [done|lia]. }
    assert (Hsmall : ∀ n, n ∈ placed ++ q →
              ∃ e, <[u := (d - 1)%Z]> rem !! n = Some e ∧ (e ≤ 0)%Z).
    { intros n Hn. destruct (H2 n Hn) as (e & He & Hle).
      destruct (decide (u = n)) as [->|Hne].
      - rewrite lookup_insert_eq. exists (d - 1)%Z. split; [done|].
        rewrite Hu in He. injection He as ->. lia.
      - rewrite lookup_insert_ne by done. eauto. }
    assert (Hconst : ∀ n e, is_get_attr g n = true →
              <[u := (d - 1)%Z]> rem !! n = Some e → (e ≤ 0)%Z).
    { intros n e Hc He. destruct (Hlook n e He) as (e' & He' & Hle).
      specialize (H3 n e' Hc He'). lia. }
    assert (Hdom : ∀ n, is_Some (<[u := (d - 1)%Z]> rem !! n) → n ∈ names g).
    { intros n [e He]. destruct (Hlook n e He) as (e' & He' & _). apply H5. eauto. }
    case_decide as Hz.
    + assert (Hfresh : u ∉ placed ++ q).
      { intros Hin. destruct (H2 u Hin) as (e & He & Hle).
        rewrite Hu in He. injection He as ->. lia. }
      split; try done.
      * rewrite app_assoc. apply NoDup_app. split_and!; [done| |apply NoDup_singleton].
        intros x Hx ->%list_elem_of_singleton. done.
      * intros n. rewrite app_assoc. intros [Hn| ->%list_elem_of_singleton]%elem_of_app.
        -- by apply Hsmall.
        -- rewrite lookup_insert_eq. exists (d - 1)%Z. split; [done|lia].
      * intros n. rewrite app_assoc. intros [Hn| ->%list_elem_of_singleton]%elem_of_app.
        -- by apply H4.
        -- destruct (is_get_attr g u) eqn:Hc; [|done].
           specialize (H3 u d Hc Hu). lia.
    + by split.
Qed.

(** Partition 0 holds no target; every later partition starts with
    the target that opened it and holds no other. *)
Definition led (p : list string) : Prop :=
  ∃ t rest, p = t :: rest ∧ t ∈ target_nodes ∧ Forall (.∉ target_nodes) rest.

Definition part_ok (k : nat) (p : list string) : Prop :=
  match k with
  | O => Forall (.∉ target_nodes) p
  | S _ => led p
  end.

Definition parts_ok (parts : list (list string)) : Prop :=
  ∀ k p, parts !! k = Some p → part_ok k p.

Definition winv (st : KState) : Prop :=
  kinv (concat (partitions st)) (remaining_indegrees st) (queue st)
  ∧ S (partition_index st) = length (partitions st)
  ∧ parts_ok (partitions st).

Lemma part_ok_snoc k p nm :
  nm ∉ target_nodes → part_ok k p → part_ok k (p ++ [nm]).
Proof.
  intros Hnm. destruct k; simpl.
  - intros Hp. apply Forall_app. split; [done|]. by apply Forall_singleton.
  - intros (t & rest & -> & Ht & Hrest). exists t, (rest ++ [nm]).
    split_and!; [done|done|]. apply Forall_app. split; [done|]. by apply Forall_singleton.
Qed.

Lemma pop_node_winv parts rem index node q st' :
  winv (mkKState parts rem index (node :: q)) →
  pop_node g target_nodes node (mkKState parts rem index q) = Ok st' →
  winv st'
  ∧ concat (partitions st') ≡ₚ concat parts ++ [node].
Proof.
  intros (Hk & Hidx & Hparts). simpl in *. unfold pop_node. simpl.
  case_bool_decide as Ht; intros Hpop;
    apply bind_Ok in Hpop as (parts' & Happ & Hpop);
    (destruct (node_of g node) as [n|] eqn:Hn; [|done]);
    apply bind_Ok in Hpop as ([rem' q'] & Hstep & Hpop);
    injection Hpop as <-; simpl.
  - (* a target opens a new partition *)
    apply append_to_Ok in Happ as [_ ->].
    assert (Halter : alter (λ p, p ++ [node]) (S index) (parts ++ [[]])
                     = parts ++ [[node]]).
    { rewrite Hidx. replace (length parts) with (length parts + 0) by lia.
      by rewrite alter_app_r. }
    rewrite Halter. unfold winv; simpl.
    replace (concat (parts ++ [[node]])) with (concat parts ++ [node])
      by (rewrite concat_app; simpl; by rewrite ?app_nil_r).
    split; [|done]. split_and!.
    + eapply visit_users_kinv; [|exact Hstep]. by apply kinv_pop.
    + rewrite length_app. simpl. lia.
    + intros k p Hkp. apply lookup_app_Some in Hkp as [Hkp|[Hge Hkp]].
      * by apply Hparts.
      * destruct (k - length parts) as [|j] eqn:Hj; [|by destruct j].
        injection Hkp as <-. destruct k as [|k]; [lia|].
        exists node, []. by split_and!.
  - (* the node joins the current partition *)
    apply append_to_Ok in Happ as [Hlt ->].
    assert (Hperm : concat (alter (λ p, p ++ [node]) index parts)
                    ≡ₚ concat parts ++ [node]).
    { rewrite concat_alter with (x := node); [|intros p|done].
      - by rewrite <- Permutation_cons_append.
      - by rewrite <- Permutation_cons_append. }
    unfold winv; simpl. split; [|done]. split_and!.
    + eapply visit_users_kinv; [|exact Hstep].
      eapply kinv_perm; [symmetry; exact Hperm|]. by apply kinv_pop.
    + by rewrite length_alter.
    + intros k p. destruct (decide (index = k)) as [<-|Hne].
      * rewrite list_lookup_alter_eq. destruct (parts !! index) as [p0|] eqn:Hp0; [|done].
        simpl. intros [= <-]. apply part_ok_snoc; [done|]. by apply Hparts.
      * rewrite list_lookup_alter_ne by done. apply Hparts.
Qed.

Lemma traverse_winv clock st st' :
  winv st → traverse clock g target_nodes st = Ok st' →
  winv st' ∧ queue st' = []
  ∧ ∀ x, x ∈ concat (partitions st) → x ∈ concat (partitions st').
Proof.
  revert st. induction clock as [|clock IH]; intros [parts rem index q] Hinv; simpl.
  - destruct q; [|done]. intros [= <-]. done.
  - destruct q as [|node q]; [by intros [= <-]|].
    intros Htr. apply bind_Ok in Htr as (st1 & Hstep & Htr).
    destruct (pop_node_winv _ _ _ _ _ _ Hinv Hstep) as [Hinv' Hperm].
    destruct (IH _ Hinv' Htr) as (? & ? & Hsub). split_and!; [done|done|].
    intros x Hx. apply Hsub. rewrite Hperm. apply elem_of_app. by left.
Qed.

(** The traversal starts in a state that satisfies the invariant. *)
Lemma foldl_insert_lookup (f : Node → Z) (l : list Node)
    (m0 : gmap string Z) nm :
  NoDup (names l) →
  foldl (λ m n, <[name n := f n]> m) m0 l !! nm
  = match node_of l nm with
    | Some n => Some (f n)
    | None => m0 !! nm
    end.
Proof.
  revert m0. induction l as [|n l IH]; intros m0 Hnd; simpl; [done|].
  apply NoDup_cons in Hnd as [Hn Hnd]. rewrite IH by done.
  case_decide as Hnm.
  - subst nm. apply node_of_None in Hn as ->. by rewrite lookup_insert_eq.
  - destruct (node_of l nm); [done|]. by rewrite lookup_insert_ne.
Qed.

Lemma init_remaining_lookup nm :
  NoDup (names g) →
  init_remaining_indegrees g !! nm = indegree g <$> node_of g nm.
Proof.
  intros Hnd. unfold init_remaining_indegrees.
  rewrite foldl_insert_lookup by done. by destruct (node_of g nm).
Qed.

Hypothesis names_unique : NoDup (names g).
Hypothesis constants_are_sources :
  ∀ n, n ∈ g → op n = get_attr → all_input_nodes n = [].

Lemma init_winv :
  let rem := init_remaining_indegrees g in
  winv (mkKState [[]] rem 0 (init_queue g rem)).
Proof.
  intros rem. unfold winv; simpl. split_and!; [split; simpl|done|].
  - unfold init_queue. apply (sublist_NoDup _ (names g)); [done|].
    apply fmap_sublist, sublist_filter.
  - intros n (nd & -> & [[Hrem _] _]%list_elem_of_filter)%list_elem_of_fmap.
    exists 0%Z. split; [done|lia].
  - intros n d Hc. unfold rem. rewrite init_remaining_lookup by done.
    unfold is_get_attr in Hc. destruct (node_of g n) as [nd|] eqn:Hnd; [|done].
    apply bool_decide_eq_true in Hc. simpl. intros [= <-].
    unfold indegree. apply node_of_Some in Hnd as [Hin _].
    rewrite (constants_are_sources nd Hin Hc). simpl. lia.
  - intros n (nd & -> & [[_ Hop] Hin]%list_elem_of_filter)%list_elem_of_fmap.
    rewrite is_get_attr_elem by done. by apply bool_decide_eq_false.
  - intros n. unfold rem. rewrite init_remaining_lookup by done.
    intros [d Hd]. destruct (node_of g n) eqn:Hn; [|done].
    apply node_of_Some in Hn as [Hin <-]. by apply list_elem_of_fmap_2.
  - intros [|k] p; [|done]. intros [= <-]. simpl. constructor.
Qed.

End Traversal.

(** *** The second pass *)

(** [nm] names a constant of the graph. *)
Definition constant (nodes : list Node) (nm : string) : Prop :=
  ∃ n, n ∈ nodes ∧ name n = nm ∧ op n = get_attr.

Lemma attach_get_attrs_spec nodes parts parts' :
  attach_get_attrs nodes parts = Ok parts' →
  concat parts' ≡ₚ names (filter (λ n, op n = get_attr) nodes) ++ concat parts
  ∧ length parts' = length parts
  ∧ ∀ k P', parts' !! k = Some P' →
      ∃ pre P, parts !! k = Some P ∧ P' = pre ++ P ∧ Forall (constant nodes) pre.
Proof.
  revert parts. induction nodes as [|n nodes IH]; intros parts; simpl.
  - intros [= <-]. split_and!; [done|done|]. intros k P' HP'. by exists [], P'.
  - case_decide as Hop.
    + intros Hatt. apply bind_Ok in Hatt as (index & _ & Hatt).
      apply bind_Ok in Hatt as (parts1 & Hins & Hatt).
      apply insert_front_Ok in Hins as [Hlt ->].
      destruct (IH _ Hatt) as (Hperm & Hlen & Hpre). split_and!.
      * rewrite Hperm, concat_alter with (x := name n) by done.
        rewrite filter_cons_True by done. simpl. by rewrite Permutation_middle.
      * by rewrite Hlen, length_alter.
      * intros k P' HP'. destruct (Hpre k P' HP') as (pre & P1 & HP1 & -> & Hc).
        assert (Hmono : Forall (constant (n :: nodes)) pre).
        { eapply Forall_impl; [exact Hc|]. intros c (m & ? & ? & ?).
          exists m. split_and!; [by right|done|done]. }
        destruct (decide (index = k)) as [<-|Hne].
        -- rewrite list_lookup_alter_eq in HP1.
           destruct (parts !! index) as [P|] eqn:HP; [|done]. injection HP1 as <-.
           exists (pre ++ [name n]), P. split_and!; [done|by rewrite <- app_assoc|].
           apply Forall_app. split; [done|]. apply Forall_singleton.
           exists n. split_and!; [left|done|done].
        -- rewrite list_lookup_alter_ne in HP1 by done. by exists pre, P1.
    + intros Hatt. destruct (IH _ Hatt) as (Hperm & Hlen & Hpre). split_and!.
      * by rewrite filter_cons_False.
      * done.
      * intros k P' HP'. destruct (Hpre k P' HP') as (pre & P & HP & -> & Hc).
        exists pre, P. split_and!; [done|done|].
        eapply Forall_impl; [exact Hc|]. intros c (m & ? & ? & ?).
        exists m. split_and!; [by right|done|done].
Qed.

(** *** Partial correctness of [topological_partition] *)

Lemma topological_partition_Ok g target_nodes ps :
  NoDup (names g) →
  (∀ n, n ∈ g → op n = get_attr → all_input_nodes n = []) →
  topological_partition g target_nodes = Ok ps →
  ∃ st,
    winv g target_nodes st ∧ queue st = []
    ∧ check_assumption g = true
    ∧ attach_get_attrs g (partitions st) = Ok ps
    ∧ ∀ n, n ∈ concat ps ↔ n ∈ names g.
Proof.
  intros Hnd Hsrc Htp. unfold topological_partition in Htp.
  apply bind_Ok in Htp as ([] & Hcheck%assert_Ok & Htp).
  apply bind_Ok in Htp as (st & Htr & Htp).
  apply bind_Ok in Htp as (parts & Hatt & Htp).
  apply bind_Ok in Htp as ([] & Hcover%assert_Ok & Htp). injection Htp as <-.
  apply bool_decide_eq_true in Hcover.
  destruct (traverse_winv _ _ _ _ _ (init_winv g target_nodes Hnd Hsrc) Htr)
    as (Hinv & Hq & _).
  exists st. split_and!; try done.
  intros n. rewrite <- (elem_of_list_to_set (C := gset string)), Hcover.
  apply elem_of_list_to_set.
Qed.

(** *** Totality on well-formed graphs *)

(** Graph order is a topological order: inputs come first. *)
Definition topologically_ordered (g : Graph) : Prop :=
  ∀ pre n post, g = pre ++ n :: post →
    ∀ i, i ∈ all_input_nodes n → i ∈ names pre.

(** Every constant is read by some node. *)
Definition constants_used (g : Graph) : Prop :=
  ∀ n, n ∈ g → op n = get_attr → users n ≠ [].

Lemma check_assumption_true g :
  check_assumption g = true →
  ∀ n, n ∈ g →
    (∀ u, u ∈ users n → ∃ un, node_of g u = Some un ∧ name n ∈ all_input_nodes un)
    ∧ (∀ i, i ∈ all_input_nodes n → ∃ ind, node_of g i = Some ind ∧ name n ∈ users ind)
    ∧ NoDup (users n) ∧ NoDup (all_input_nodes n).
Proof.
  unfold check_assumption. rewrite forallb_forall. intros Hall n Hn.
  specialize (Hall n (proj1 (list_elem_of_In _ _) Hn)).
  rewrite !andb_true_iff, !forallb_forall, !bool_decide_eq_true in Hall.
  destruct Hall as [[[Hu Hi] Hndu] Hndi]. split_and!; [| |done|done].
  - intros u Hin. specialize (Hu u (proj1 (list_elem_of_In _ _) Hin)).
    destruct (node_of g u) as [un|]; [|done].
    apply bool_decide_eq_true in Hu. eauto.
  - intros i Hin. specialize (Hi i (proj1 (list_elem_of_In _ _) Hin)).
    destruct (node_of g i) as [ind|]; [|done].
    apply bool_decide_eq_true in Hi. eauto.
Qed.

Lemma filter_ext_elem {A} (P Q : A → Prop) `{∀ x, Decision (P x)}
    `{∀ x, Decision (Q x)} (l : list A) :
  (∀ i, i ∈ l → P i ↔ Q i) → filter P l = filter Q l.
Proof.
  induction l as [|y l IH]; intros Hext; [done|].
  rewrite !filter_cons. rewrite IH by (intros i Hi; apply Hext; by right).
  destruct (decide (P y)) as [HP|HP], (decide (Q y)) as [HQ|HQ]; try done.
  - destruct HQ. apply Hext; [left|done].
  - destruct HP. apply Hext; [left|done].
Qed.

Lemma filter_remove_length {A} `{EqDecision A} (P : A → Prop)
    `{∀ x, Decision (P x)} (l : list A) (x : A) :
  NoDup l → x ∈ l → P x →
  S (length (filter (λ i, P i ∧ i ≠ x) l)) = length (filter P l).
Proof.
  induction l as [|y l IH]; intros Hnd Hin Hx.
  - by apply elem_of_nil in Hin.
  - apply NoDup_cons in Hnd as [Hy Hnd]. rewrite !filter_cons.
    apply elem_of_cons in Hin as [->|Hin].
    + destruct (decide (P y ∧ y ≠ y)) as [[_ ?]|_]; [done|].
      destruct (decide (P y)); [|done]. simpl. f_equal. f_equal.
      apply filter_ext_elem. intros i Hi.
      split; [by intros [? _]|]. intros ?. split; [done|]. by intros ->.
    + destruct (decide (P y)) as [HP|HP].
      * destruct (decide (P y ∧ y ≠ x)) as [_|Hn]; [simpl; by rewrite IH|].
        destruct Hn. split; [done|]. by intros ->.
      * destruct (decide (P y ∧ y ≠ x)) as [[? _]|_]; [done|]. by apply IH.
Qed.

Lemma filter_remove_absent {A} `{EqDecision A} (P : A → Prop)
    `{∀ x, Decision (P x)} (l : list A) (x : A) :
  x ∉ l → filter (λ i, P i ∧ i ≠ x) l = filter P l.
Proof.
  intros Hx. apply filter_ext_elem. intros i Hi.
  split; [by intros [? _]|]. intros ?. split; [done|]. by intros ->.
Qed.

Lemma visit_users_spec us (rem : gmap string Z) q :
  NoDup us → (∀ u, u ∈ us → is_Some (rem !! u)) →
  ∃ rem',
    visit_users us rem q
    = Ok (rem', q ++ filter (λ u, rem !! u = Some 1%Z) us)
    ∧ ∀ x, rem' !! x
          = if decide (x ∈ us) then (λ d, (d - 1)%Z) <$> rem !! x else rem !! x.
Proof.
  revert rem q. induction us as [|u us IH]; intros rem q Hnd Hdom; simpl.
  - exists rem. rewrite app_nil_r. by split.
  - apply NoDup_cons in Hnd as [Hu Hnd].
    destruct (Hdom u) as [d Hd]; [left|]. rewrite Hd.
    destruct (IH (<[u := (d - 1)%Z]> rem)
                 (if decide ((d - 1)%Z = 0%Z) then q ++ [u] else q) Hnd)
      as (rem' & Hvis & Hrem').
    { intros u' Hu'. rewrite lookup_insert_ne; [apply Hdom; by right|]. by intros ->. }
    exists rem'. split.
    + rewrite Hvis. f_equal. f_equal.
      assert (Hfilter : filter (λ u0, <[u := (d - 1)%Z]> rem !! u0 = Some 1%Z) us
                        = filter (λ u0, rem !! u0 = Some 1%Z) us).
      { apply filter_ext_elem. intros i Hi.
        rewrite lookup_insert_ne; [done|]. by intros ->. }
      rewrite Hfilter, filter_cons. rewrite Hd.
      destruct (decide ((d - 1)%Z = 0%Z)) as [Hz|Hz].
      * rewrite decide_True by (f_equal; lia). by rewrite <- app_assoc.
      * rewrite decide_False; [done|]. intros [= ->]. lia.
    + intros x. rewrite Hrem'. destruct (decide (x = u)) as [->|Hne].
      * rewrite decide_False by done. rewrite decide_True by left.
        by rewrite lookup_insert_eq, Hd.
      * rewrite lookup_insert_ne by done.
        destruct (decide (x ∈ us)) as [Hx|Hx].
        -- rewrite decide_True; [done|by right].
        -- rewrite decide_False; [done|]. by intros [?|?]%elem_of_cons.
Qed.

Section Totality.
Context (g : Graph) (target_nodes : list string).
Hypothesis names_unique : NoDup (names g).
Hypothesis constants_are_sources :
  ∀ n, n ∈ g → op n = get_attr → all_input_nodes n = [].
Hypothesis edges_consistent : check_assumption g = true.
Hypothesis ordered : topologically_ordered g.

(** Inputs of [n] the traversal still waits for. *)
Definition pending (placed : list string) (n : Node) : list string :=
  filter (λ i, is_get_attr g i = false ∧ i ∉ placed) (all_input_nodes n).

(** The counters count pending inputs, and a node is queued or
    placed exactly when it has none. *)
Definition sinv (placed : list string) (rem : gmap string Z)
    (q : list string) : Prop :=
  (∀ n, n ∈ g → rem !! name n = Some (Z.of_nat (length (pending placed n))))
  ∧ (∀ n, n ∈ g → op n ≠ get_attr →
       name n ∈ placed ++ q ↔ pending placed n = []).

Lemma pending_perm placed placed' n :
  placed ≡ₚ placed' → pending placed n = pending placed' n.
Proof.
  intros Hp. apply filter_ext_elem. intros i _. by rewrite Hp.
Qed.

Lemma sinv_perm placed placed' rem q :
  placed ≡ₚ placed' → sinv placed rem q → sinv placed' rem q.
Proof.
  intros Hp [H1 H2]. split.
  - intros n Hn. rewrite <- (pending_perm _ _ _ Hp). by apply H1.
  - intros n Hn Hop. rewrite <- (pending_perm _ _ _ Hp), <- Hp. by apply H2.
Qed.

Lemma user_iff_input nd n :
  nd ∈ g → n ∈ g → name n ∈ users nd ↔ name nd ∈ all_input_nodes n.
Proof.
  intros Hnd Hn. split; intros Hin.
  - destruct (check_assumption_true g edges_consistent nd Hnd) as (Hu & _).
    destruct (Hu _ Hin) as (un & Hun & Hback).
    rewrite node_of_elem in Hun by done. by injection Hun as <-.
  - destruct (check_assumption_true g edges_consistent n Hn) as (_ & Hi & _).
    destruct (Hi _ Hin) as (ind & Hind & Hback).
    rewrite node_of_elem in Hind by done. by injection Hind as <-.
Qed.

Lemma pending_snoc placed node n :
  n ∈ g → node ∉ placed → is_get_attr g node = false →
  pending (placed ++ [node]) n
  = filter (λ i, (is_get_attr g i = false ∧ i ∉ placed) ∧ i ≠ node)
      (all_input_nodes n).
Proof.
  intros Hn Hnode Hc. apply filter_ext_elem. intros i _.
  rewrite not_elem_of_app, list_elem_of_singleton.
  split; [by intros [? [? ?]]|by intros [[? ?] ?]].
Qed.

Lemma pending_snoc_length placed node n :
  n ∈ g → node ∉ placed → is_get_attr g node = false →
  length (pending placed n)
  = (if decide (node ∈ all_input_nodes n) then 1 else 0)
    + length (pending (placed ++ [node]) n).
Proof.
  intros Hn Hnode Hc. rewrite pending_snoc by done.
  destruct (check_assumption_true g edges_consistent n Hn) as (_ & _ & _ & Hnd).
  case_decide as Hin.
  - unfold pending. by rewrite <- (filter_remove_length _ _ node).
  - by rewrite filter_remove_absent.
Qed.

Lemma pop_node_total parts rem index node q :
  winv g target_nodes (mkKState parts rem index (node :: q)) →
  sinv (concat parts) rem (node :: q) →
  ∃ st', pop_node g target_nodes node (mkKState parts rem index q) = Ok st'
         ∧ sinv (concat (partitions st')) (remaining_indegrees st') (queue st').
Proof.
  intros Hw Hs. pose proof Hw as (Hk & Hidx & Hparts). simpl in *.
  destruct Hk as [K1 K2 K3 K4 K5].
  assert (Hq : node ∈ concat parts ++ node :: q).
  { apply elem_of_app. right. left. }
  assert (Hfresh : node ∉ concat parts).
  { apply NoDup_app in K1 as (_ & Hdisj & _). intros Hin.
    apply (Hdisj _ Hin). left. }
  destruct (K2 _ Hq) as (d & Hd & _).
  destruct (node_of_is_Some g node) as [nd Hnd]; [apply K5; eauto|].
  pose proof (node_of_Some _ _ _ Hnd) as [Hndg Hname].
  destruct (check_assumption_true g edges_consistent nd Hndg) as (Hu & _ & Hndu & _).
  destruct Hs as [S1 S2].
  destruct (visit_users_spec (users nd) rem q Hndu) as (rem' & Hvis & Hrem').
  { intros u Hin. destruct (Hu _ Hin) as (un & Hun & _).
    apply node_of_Some in Hun as [Hung <-]. rewrite S1 by done. eauto. }
  assert (Hpop : ∃ parts',
    pop_node g target_nodes node (mkKState parts rem index q)
    = Ok (mkKState parts' rem' (if bool_decide (node ∈ target_nodes)
                                then S index else index)
            (q ++ filter (λ u, rem !! u = Some 1%Z) (users nd)))).
  { unfold pop_node, append_to. simpl. case_bool_decide.
    - rewrite decide_True by (rewrite length_app; simpl; lia). simpl.
      rewrite Hnd, Hvis. simpl. eauto.
    - rewrite decide_True by lia. simpl. rewrite Hnd, Hvis. simpl. eauto. }
  destruct Hpop as (parts' & Hpop). eexists. split; [exact Hpop|]. simpl.
  destruct (pop_node_winv _ _ _ _ _ _ _ _ Hw Hpop) as [_ Hperm]. simpl in Hperm.
  apply (sinv_perm (concat parts ++ [node])); [done|].
  assert (Hc : is_get_attr g node = false) by by apply K4.
  assert (Hcount : ∀ n, n ∈ g →
    rem' !! name n = Some (Z.of_nat (length (pending (concat parts ++ [node]) n)))
    ∧ (rem !! name n = Some 1%Z ∧ name n ∈ users nd
       ↔ length (pending (concat parts) n) = 1 ∧ node ∈ all_input_nodes n)).
  { intros n Hn. pose proof (pending_snoc_length (concat parts) node n Hn Hfresh Hc) as Hlen.
    pose proof (user_iff_input nd n Hndg Hn) as Hiff. rewrite Hname in Hiff.
    rewrite Hrem', S1 by done. split.
    - destruct (decide (name n ∈ users nd)) as [Hin|Hin]; simpl.
      + rewrite decide_True in Hlen by by apply Hiff. f_equal. lia.
      + rewrite decide_False in Hlen by (by rewrite <- Hiff). f_equal. lia.
    - rewrite Hiff. split; intros [Hone ?]; (split; [|done]).
      + injection Hone as Hone. lia.
      + f_equal. lia. }
  split.
  - intros n Hn. by apply Hcount.
  - intros n Hn Hop. specialize (S2 n Hn Hop).
    destruct (Hcount n Hn) as [_ Hone].
    pose proof (pending_snoc_length (concat parts) node n Hn Hfresh Hc) as Hlen.
    rewrite <- (app_assoc (concat parts) [node]). simpl.
    set (F := filter (λ u, rem !! u = Some 1%Z) (users nd)).
    replace (concat parts ++ node :: q ++ F)
      with ((concat parts ++ node :: q) ++ F) by (by rewrite <- app_assoc).
    rewrite elem_of_app, S2. unfold F. rewrite list_elem_of_filter, Hone.
    rewrite <- !length_zero_iff_nil. case_decide; split.
    + intros [?|[? _]]; lia.
    + intros ?. right. split; [lia|done].
    + intros [?|[_ ?]]; [lia|done].
    + intros ?. left. lia.
Qed.

Lemma name_inj n m : n ∈ g → m ∈ g → name n = name m → n = m.
Proof.
  intros Hn Hm Heq. pose proof (node_of_elem g n names_unique Hn) as H1.
  rewrite Heq, node_of_elem in H1 by done. by injection H1.
Qed.

Lemma init_sinv :
  let rem := init_remaining_indegrees g in
  sinv [] rem (init_queue g rem).
Proof.
  intros rem.
  assert (Hrem : ∀ n, n ∈ g →
    rem !! name n = Some (Z.of_nat (length (pending [] n)))).
  { intros n Hn. unfold rem. rewrite init_remaining_lookup, node_of_elem by done.
    simpl. unfold indegree, pending. do 3 f_equal. apply filter_ext_elem.
    intros i _. split; [|by intros [? _]]. intros ?. split; [done|apply not_elem_of_nil]. }
  split; [done|]. intros n Hn Hop. simpl. unfold init_queue.
  rewrite <- length_zero_iff_nil. split.
  - intros (m & Heq & [[Hz _] Hm]%list_elem_of_filter)%list_elem_of_fmap.
    rewrite <- Heq, Hrem in Hz by done. injection Hz as Hz. lia.
  - intros Hz. apply list_elem_of_fmap. exists n. split; [done|].
    apply list_elem_of_filter. split; [|done]. split; [|done].
    rewrite Hrem by done. by rewrite Hz.
Qed.

Lemma queued_bound (placed : list string) rem q :
  kinv g placed rem q → length (placed ++ q) ≤ length g.
Proof.
  intros [K1 K2 _ _ K5]. rewrite <- (length_fmap name g).
  apply submseteq_length, NoDup_submseteq; [done|].
  intros x Hx. destruct (K2 x Hx) as (d & Hd & _). apply K5. eauto.
Qed.

Lemma traverse_total clock st :
  winv g target_nodes st →
  sinv (concat (partitions st)) (remaining_indegrees st) (queue st) →
  length g ≤ clock + length (concat (partitions st)) →
  ∃ st', traverse clock g target_nodes st = Ok st'
         ∧ sinv (concat (partitions st')) (remaining_indegrees st') (queue st').
Proof.
  revert st. induction clock as [|clock IH]; intros [parts rem index q] Hw Hs Hlen;
    simpl in *.
  - destruct q as [|node q]; [eauto|].
    destruct Hw as (Hk & _). apply queued_bound in Hk. simpl in Hk.
    rewrite length_app in Hk. simpl in Hk. lia.
  - destruct q as [|node q]; [eauto|].
    destruct (pop_node_total _ _ _ _ _ Hw Hs) as (st1 & Hpop & Hs1).
    destruct (pop_node_winv _ _ _ _ _ _ _ _ Hw Hpop) as [Hw1 Hperm].
    rewrite Hpop. simpl. apply IH; [done|done|].
    rewrite Hperm, length_app. simpl. lia.
Qed.

(** Once the queue is empty every node that is not a constant has
    been placed. *)
Lemma drained_all_placed placed rem :
  sinv placed rem [] →
  ∀ n, n ∈ g → op n ≠ get_attr → name n ∈ placed.
Proof.
  intros [_ S2].
  assert (Hpre : ∀ pre post, g = pre ++ post →
            ∀ n, n ∈ pre → op n ≠ get_attr → name n ∈ placed).
  { induction pre as [|n pre IH] using rev_ind; intros post Hg m Hm Hop.
    - by apply elem_of_nil in Hm.
    - rewrite <- app_assoc in Hg. simpl in Hg.
      apply elem_of_app in Hm as [Hm| ->%list_elem_of_singleton];
        [by eapply IH|].
      assert (Hmg : n ∈ g).
      { rewrite Hg. apply elem_of_app. right. left. }
      specialize (S2 n Hmg Hop). rewrite app_nil_r in S2. apply S2.
      unfold pending. apply length_zero_iff_nil.
      assert (Hnone : ∀ i, i ∈ all_input_nodes n →
                ¬ (is_get_attr g i = false ∧ i ∉ placed)).
      { intros i Hi [Hc Hnot]. apply Hnot.
        apply (ordered _ _ _ Hg) in Hi.
        apply list_elem_of_fmap in Hi as (mi & -> & Hmi).
        assert (Hmig : mi ∈ g).
        { rewrite Hg. apply elem_of_app. by left. }
        eapply IH; [exact Hg|done|].
        rewrite is_get_attr_elem in Hc by done.
        by apply bool_decide_eq_false in Hc. }
      induction (all_input_nodes n) as [|i l IHl]; [done|].
      rewrite filter_cons_False by (apply Hnone; left).
      apply IHl. intros j Hj. apply Hnone. by right. }
  intros n Hn. apply (Hpre g []); [by rewrite app_nil_r|done].
Qed.

End Totality.

Lemma foldl_min_le x l : foldl Nat.min x l ≤ x.
Proof.
  revert x. induction l as [|y l IH]; intros x; simpl; [done|].
  specialize (IH (x `min` y)). lia.
Qed.

Lemma partition_of_Some parts u k :
  partition_of parts u = Some k → k < length parts.
Proof.
  unfold partition_of. destruct (list_find _ parts) as [[i P]|] eqn:Hf; [|done].
  simpl. intros [= <-]. apply list_find_Some in Hf as (Hi & _).
  by eapply lookup_lt_Some.
Qed.

Lemma partition_of_elem parts u :
  u ∈ concat parts → is_Some (partition_of parts u).
Proof.
  intros (P & HP & Hu)%elem_of_concat. unfold partition_of.
  destruct (list_find_elem_of (λ p, u ∈ p) parts P HP Hu) as [[i Q] ->]. by eexists.
Qed.

Lemma attach_get_attrs_total nodes parts :
  (∀ n, n ∈ nodes → op n = get_attr → ∃ u, u ∈ users n ∧ u ∈ concat parts) →
  ∃ parts', attach_get_attrs nodes parts = Ok parts'.
Proof.
  revert parts. induction nodes as [|n nodes IH]; intros parts Hused; simpl; [eauto|].
  case_decide as Hop.
  - destruct (Hused n) as (u & Hu & Hplaced); [left|done|].
    destruct (partition_of_elem parts u Hplaced) as [k Hk].
    assert (Hne : ∃ x l, omap (partition_of parts) (users n) = x :: l
                         ∧ x < length parts).
    { assert (Hin : k ∈ omap (partition_of parts) (users n)).
      { apply list_elem_of_omap. eauto. }
      destruct (omap (partition_of parts) (users n)) as [|x l] eqn:Hom.
      - by apply elem_of_nil in Hin.
      - exists x, l. split; [done|].
        assert (Hx : x ∈ omap (partition_of parts) (users n)) by (rewrite Hom; left).
        apply list_elem_of_omap in Hx as (u' & _ & Hx).
        by eapply partition_of_Some. }
    destruct Hne as (x & l & -> & Hx). simpl. unfold insert_front.
    rewrite decide_True by (pose proof (foldl_min_le x l); lia). simpl.
    apply IH. intros m Hm Hopm. destruct (Hused m) as (v & Hv & Hvp); [by right|done|].
    exists v. split; [done|]. rewrite concat_alter with (x := name n); [by right|done|].
    pose proof (foldl_min_le x l). lia.
  - apply IH. intros m Hm Hopm. apply Hused; [by right|done].
Qed.

Lemma topological_partition_total g target_nodes :
  NoDup (names g) →
  (∀ n, n ∈ g → op n = get_attr → all_input_nodes n = []) →
  check_assumption g = true →
  topologically_ordered g →
  constants_used g →
  ∃ ps, topological_partition g target_nodes = Ok ps.
Proof.
  intros Hnd Hsrc Hcheck Hord Hused. unfold topological_partition.
  rewrite Hcheck. simpl.
  pose proof (init_winv g target_nodes Hnd Hsrc) as Hw0.
  pose proof (init_sinv g Hnd) as Hs0. simpl in Hw0, Hs0.
  destruct (traverse_total g target_nodes Hnd Hcheck (length g) _ Hw0 Hs0)
    as (st & Htr & Hs); [simpl; lia|].
  destruct (traverse_winv _ _ _ _ _ Hw0 Htr) as (Hw & Hq & _).
  rewrite Htr. simpl. rewrite Hq in Hs.
  pose proof (drained_all_placed g Hnd Hord _ _ Hs) as Hall.
  destruct (attach_get_attrs_total g (partitions st)) as (ps & Hatt).
  { intros n Hn Hop. destruct (users n) as [|u us] eqn:Hus; [by destruct (Hused n Hn Hop)|].
    exists u. split; [left|].
    destruct (check_assumption_true g Hcheck n Hn) as (Hu & _).
    destruct (Hu u) as (un & Hun & Hback); [rewrite Hus; left|].
    apply node_of_Some in Hun as [Hung <-]. apply Hall; [done|].
    intros Hc. rewrite (Hsrc un Hung Hc) in Hback. by apply elem_of_nil in Hback. }
  rewrite Hatt. simpl.
  destruct (attach_get_attrs_spec _ _ _ Hatt) as (Hperm & _ & _).
  rewrite bool_decide_eq_true_2; [simpl; eauto|].
  apply set_eq. intros x. rewrite !elem_of_list_to_set, Hperm, elem_of_app.
  destruct Hw as ([_ K2 _ _ K5] & _). rewrite Hq, app_nil_r in K2. split.
  - intros [(n & -> & [_ Hn]%list_elem_of_filter)%list_elem_of_fmap|Hx].
    + by apply list_elem_of_fmap_2.
    + destruct (K2 x Hx) as (d & Hd & _). apply K5. eauto.
  - intros (n & -> & Hn)%list_elem_of_fmap.
    destruct (decide (op n = get_attr)) as [Hop|Hop].
    + left. apply list_elem_of_fmap_2. by apply list_elem_of_filter.
    + right. by apply Hall.
Qed.

(** *** Target isolation needs less: only the shape of the partition list *)

Section Shape.
Context (g : Graph) (target_nodes : list string).

Definition pinv (st : KState) : Prop :=
  S (partition_index st) = length (partitions st)
  ∧ parts_ok target_nodes (partitions st).

Lemma pop_node_pinv st node st' :
  pinv st → pop_node g target_nodes node st = Ok st' → pinv st'.
Proof.
  destruct st as [parts rem index q]. intros [Hidx Hparts]. simpl in *.
  unfold pop_node. simpl.
  case_bool_decide as Ht; intros Hpop;
    apply bind_Ok in Hpop as (parts' & Happ & Hpop);
    (destruct (node_of g node) as [n|] eqn:Hn; [|done]);
    apply bind_Ok in Hpop as ([rem' q'] & Hstep & Hpop);
    injection Hpop as <-; unfold pinv; simpl.
  - apply append_to_Ok in Happ as [_ ->].
    assert (Halter : alter (λ p, p ++ [node]) (S index) (parts ++ [[]])
                     = parts ++ [[node]]).
    { rewrite Hidx. replace (length parts) with (length parts + 0) by lia.
      by rewrite alter_app_r. }
    rewrite Halter. split.
    + rewrite length_app. simpl. lia.
    + intros k p Hkp. apply lookup_app_Some in Hkp as [Hkp|[Hge Hkp]].
      * by apply Hparts.
      * destruct (k - length parts) as [|j] eqn:Hj; [|by destruct j].
        injection Hkp as <-. destruct k as [|k]; [lia|].
        exists node, []. by split_and!.
  - apply append_to_Ok in Happ as [Hlt ->]. split.
    + by rewrite length_alter.
    + intros k p. destruct (decide (index = k)) as [<-|Hne].
      * rewrite list_lookup_alter_eq.
        destruct (parts !! index) as [p0|] eqn:Hp0; [|done].
        simpl. intros [= <-]. apply part_ok_snoc; [done|]. by apply Hparts.
      * rewrite list_lookup_alter_ne by done. apply Hparts.
Qed.

Lemma traverse_pinv clock st st' :
  pinv st → traverse clock g target_nodes st = Ok st' → pinv st'.
Proof.
  revert st. induction clock as [|clock IH]; intros [parts rem index q] Hinv; simpl.
  - destruct q; [|done]. by intros [= <-].
  - destruct q as [|node q]; [by intros [= <-]|].
    intros Htr. apply bind_Ok in Htr as (st1 & Hstep & Htr).
    eapply IH; [|exact Htr]. eapply pop_node_pinv; [|exact Hstep]. done.
Qed.

End Shape.

Lemma NoDup_concat_index {A} (ps : list (list A)) i j P Q x :
  NoDup (concat ps) → ps !! i = Some P → ps !! j = Some Q →
  x ∈ P → x ∈ Q → i = j.
Proof.
  revert i j. induction ps as [|R ps IH]; intros i j Hnd Hi Hj HP HQ; [done|].
  simpl in Hnd. apply NoDup_app in Hnd as (_ & Hdisj & Hnd).
  destruct i as [|i], j as [|j]; simpl in *; [done| | |f_equal; by eapply IH].
  - injection Hi as ->. destruct (Hdisj x HP). apply elem_of_concat.
    exists Q. split; [by eapply list_elem_of_lookup_2|done].
  - injection Hj as ->. destruct (Hdisj x HQ). apply elem_of_concat.
    exists P. split; [by eapply list_elem_of_lookup_2|done].
Qed.

(** An executable reading of [topologically_ordered]. *)
Fixpoint ordered_from (seen : list string) (g : Graph) : bool :=
  match g with
  | [] => true
  | n :: g' =>
      forallb (λ i, bool_decide (i ∈ seen)) (all_input_nodes n)
      && ordered_from (seen ++ [name n]) g'
  end.

Lemma ordered_from_sound g : ordered_from [] g = true → topologically_ordered g.
Proof.
  assert (Hgen : ∀ seen, ordered_from seen g = true →
            ∀ pre n post, g = pre ++ n :: post →
              ∀ i, i ∈ all_input_nodes n → i ∈ seen ++ names pre).
  { induction g as [|m g IH]; intros seen Hord pre n post Hg i Hi.
    - by destruct pre.
    - simpl in Hord. apply andb_true_iff in Hord as [Hm Hord].
      destruct pre as [|m' pre]; simpl in Hg; injection Hg as -> ->.
      + rewrite forallb_forall in Hm.
        specialize (Hm i (proj1 (list_elem_of_In _ _) Hi)).
        apply bool_decide_eq_true in Hm. by rewrite app_nil_r.
      + specialize (IH _ Hord pre n post eq_refl i Hi).
        simpl. by rewrite <- app_assoc in IH. }
  intros Hord pre n post Hg i Hi. by apply (Hgen [] Hord pre n post Hg).
Qed.

(** *** The claims *)

(** C6.  The partitions returned by [topological_partition] cover the
    graph exactly: a name is a node of the graph if and only if some
    partition holds it, no node occurs twice in the flattened list of
    partitions, hence a node lies in one partition only.  The function
    does return on every edge-consistent graph given in topological
    order whose constants are all read. *)
Theorem partitions_cover_graph g target_nodes :
  NoDup (names g) →
  (∀ n, n ∈ g → op n = get_attr → all_input_nodes n = []) →
  (∀ ps, topological_partition g target_nodes = Ok ps →
     (∀ n, n ∈ names g ↔ ∃ P, P ∈ ps ∧ n ∈ P)
     ∧ NoDup (concat ps)
     ∧ (∀ i j P Q n, ps !! i = Some P → ps !! j = Some Q →
          n ∈ P → n ∈ Q → i = j))
  ∧ (check_assumption g = true → topologically_ordered g → constants_used g →
     ∃ ps, topological_partition g target_nodes = Ok ps).
Proof.
  intros Hnd Hsrc. split; [|by apply topological_partition_total].
  intros ps Htp.
  destruct (topological_partition_Ok _ _ _ Hnd Hsrc Htp)
    as (st & (Hk & _) & Hq & _ & Hatt & Hcover).
  destruct (attach_get_attrs_spec _ _ _ Hatt) as (Hperm & _ & _).
  assert (Hnodup : NoDup (concat ps)).
  { rewrite Hperm. destruct Hk as [K1 _ _ K4 _]. rewrite Hq, app_nil_r in K1, K4.
    apply NoDup_app. split_and!; [|intros x Hx Hin|done].
    - apply (sublist_NoDup _ (names g)); [done|].
      apply fmap_sublist, sublist_filter.
    - apply list_elem_of_fmap in Hx as (n & -> & [Hop Hn]%list_elem_of_filter).
      specialize (K4 _ Hin). rewrite is_get_attr_elem in K4 by done.
      by apply bool_decide_eq_false in K4. }
  split_and!; [|done|].
  - intros n. by rewrite <- Hcover, elem_of_concat.
  - intros i j P Q n. by apply NoDup_concat_index.
Qed.

Lemma partitions_cover_graph_witness :
  ∃ ps, topological_partition g_const ["t"] = Ok ps
        ∧ (∀ n, n ∈ names g_const ↔ ∃ P, P ∈ ps ∧ n ∈ P)
        ∧ NoDup (concat ps).
Proof.
  assert (Hnd : NoDup (names g_const)) by (vm_compute; by apply NoDup_ListNoDup; repeat constructor; simpl; intuition discriminate).
  assert (Hsrc : ∀ n, n ∈ g_const → op n = get_attr → all_input_nodes n = []).
  { intros n Hn. repeat (apply elem_of_cons in Hn as [->|Hn]); try done.
    by apply elem_of_nil in Hn. }
  destruct (partitions_cover_graph g_const ["t"] Hnd Hsrc) as [Hpartial Htotal].
  destruct Htotal as [ps Hps].
  - reflexivity.
  - by apply ordered_from_sound.
  - intros n Hn. repeat (apply elem_of_cons in Hn as [->|Hn]); try done.
    by apply elem_of_nil in Hn.
  - exists ps. destruct (Hpartial ps Hps) as (? & ? & _). done.
Defined.

(** C7, as the code has it.  No target lies in partition 0 and no two
    targets share a partition; a target is preceded in its partition
    only by the constants re-attached in front of it.  (As stated,
    with the target first in its partition, the claim fails: see
    [target_not_first].) *)
Theorem targets_lead_partitions g target_nodes ps :
  (∀ t, t ∈ target_nodes → ¬ constant g t) →
  topological_partition g target_nodes = Ok ps →
  ∀ k P t, ps !! k = Some P → t ∈ target_nodes → t ∈ P →
    k ≠ 0
    ∧ (∀ t', t' ∈ target_nodes → t' ∈ P → t' = t)
    ∧ ∃ pre post, P = pre ++ t :: post ∧ Forall (constant g) pre.
Proof.
  intros Htargets Htp k P t HP Ht HtP. unfold topological_partition in Htp.
  apply bind_Ok in Htp as ([] & _ & Htp).
  apply bind_Ok in Htp as (st & Htr & Htp).
  apply bind_Ok in Htp as (parts & Hatt & Htp).
  apply bind_Ok in Htp as ([] & _ & Htp). injection Htp as <-.
  assert (Hp : pinv target_nodes st).
  { eapply traverse_pinv; [|exact Htr]. split; [done|].
    intros [|?] p; [|done]. intros [= <-]. constructor. }
  destruct Hp as [_ Hparts].
  destruct (attach_get_attrs_spec _ _ _ Hatt) as (_ & _ & Hpre).
  destruct (Hpre k P HP) as (pre & P0 & HP0 & -> & Hconst).
  specialize (Hparts k P0 HP0).
  assert (Hnot : ∀ t', t' ∈ target_nodes → t' ∉ pre).
  { intros t' Ht' Hin. apply (Htargets t' Ht').
    by apply (proj1 (Forall_forall _ _) Hconst). }
  assert (HtP0 : t ∈ P0).
  { apply elem_of_app in HtP as [?|?]; [by destruct (Hnot t Ht)|done]. }
  destruct k as [|k]; simpl in Hparts.
  { by destruct (proj1 (Forall_forall _ _) Hparts t HtP0). }
  destruct Hparts as (t0 & rest & -> & Ht0 & Hrest).
  assert (Honly : ∀ t', t' ∈ target_nodes → t' ∈ t0 :: rest → t' = t0).
  { intros t' Ht' [->|Hin]%elem_of_cons; [done|].
    by destruct (proj1 (Forall_forall _ _) Hrest t' Hin). }
  rewrite (Honly t Ht HtP0). split_and!; [done| |by exists pre, rest].
  intros t' Ht' [Hin|Hin]%elem_of_app; [by destruct (Hnot t' Ht')|].
  by apply Honly.
Qed.

Lemma targets_lead_partitions_witness :
  ∃ pre post, ["c"; "t"; "y"; "out"] = pre ++ "t" :: post
              ∧ Forall (constant g_const) pre.
Proof.
  assert (Htargets : ∀ t, t ∈ ["t"] → ¬ constant g_const t).
  { intros t ->%list_elem_of_singleton (n & Hn & Hname & Hop).
    repeat (apply elem_of_cons in Hn as [->|Hn]); try done.
    by apply elem_of_nil in Hn. }
  assert (Htp : topological_partition g_const ["t"]
                = Ok [["x"]; ["c"; "t"; "y"; "out"]]) by reflexivity.
  destruct (targets_lead_partitions g_const ["t"] _ Htargets Htp
              1 ["c"; "t"; "y"; "out"] "t" eq_refl) as (_ & _ & H).
  - apply list_elem_of_singleton. reflexivity.
  - right. left.
  - exact H.
Defined.

(** C7 as stated fails: the target ["t"] of [g_const] is not the first
    node of its partition, the constant ["c"] read by ["y"] was put in
    front of it. *)
Lemma target_not_first :
  ∃ ps P, topological_partition g_const ["t"] = Ok ps
          ∧ ps !! 1 = Some P
          ∧ "t" ∈ P
          ∧ head P = Some "c".
Proof.
  exists [["x"]; ["c"; "t"; "y"; "out"]], ["c"; "t"; "y"; "out"].
  split_and!; [reflexivity|reflexivity| |reflexivity]. right. left.
Qed.

(** *** Releasing cached values *)

Lemma last_reader_ext (sgs sgs' : list Subgraph) nm :
  input_names <$> sgs = input_names <$> sgs' →
  last_reader sgs nm = last_reader sgs' nm.
Proof.
  revert sgs'. induction sgs as [|sg sgs IH]; intros [|sg' sgs']; simpl; try done.
  intros [= Hsg Hrest]. by rewrite (IH _ Hrest), Hsg.
Qed.

Lemma input_names_alter nm (k : nat) (sgs : list Subgraph) :
  input_names <$> alter (add_consumed nm) k sgs = input_names <$> sgs.
Proof.
  revert k. induction sgs as [|sg sgs IH]; intros [|k]; simpl; try done.
  f_equal. apply IH.
Qed.

Lemma last_reader_Some (sgs : list Subgraph) nm k :
  last_reader sgs nm = Some k →
  ∃ sg, sgs !! k = Some sg ∧ nm ∈ input_names sg
        ∧ ∀ j sg', k < j → sgs !! j = Some sg' → nm ∉ input_names sg'.
Proof.
  revert k. induction sgs as [|sg sgs IH]; intros k; simpl; [done|].
  destruct (last_reader sgs nm) as [k'|] eqn:Hlast.
  - intros [= <-]. destruct (IH k' eq_refl) as (sg' & Hk' & Hin & Hlater).
    exists sg'. split_and!; [done|done|]. intros [|j] sg'' Hj; [lia|].
    simpl. apply Hlater. lia.
  - case_decide as Hin; [|done]. intros [= <-]. exists sg. split_and!; [done|done|].
    intros [|j] sg' Hj; [lia|]. simpl. intros Hsg' Hnm.
    clear IH Hj. revert j Hsg'. induction sgs as [|sg0 sgs IH']; intros j; [done|].
    simpl in Hlast. destruct (last_reader sgs nm) eqn:E; [done|].
    case_decide as Hin0; [done|]. destruct j as [|j]; simpl.
    + by intros [= ->].
    + by apply IH'.
Qed.

Lemma last_reader_ge (sgs : list Subgraph) nm j sg :
  sgs !! j = Some sg → nm ∈ input_names sg →
  ∃ k, last_reader sgs nm = Some k ∧ j ≤ k.
Proof.
  revert j. induction sgs as [|sg0 sgs IH]; intros j; [done|]. simpl.
  destruct j as [|j]; simpl.
  - intros [= ->] Hin. destruct (last_reader sgs nm) as [k|].
    + exists (S k). split; [done|lia].
    + rewrite decide_True by done. exists 0. split; [done|lia].
  - intros Hj Hin. destruct (IH j Hj Hin) as (k & -> & Hle).
    exists (S k). split; [done|lia].
Qed.

Lemma populate_consumed_names_spec order (sgs sgs' : list Subgraph) :
  populate_consumed_names order sgs = Ok sgs' →
  input_names <$> sgs' = input_names <$> sgs
  ∧ ∀ k sg', sgs' !! k = Some sg' →
      ∃ sg, sgs !! k = Some sg
            ∧ consumed_names sg'
              = consumed_names sg
                ++ filter (λ nm, last_reader sgs nm = Some k) order.
Proof.
  revert sgs. induction order as [|nm order IH]; intros sgs; simpl.
  - intros [= <-]. split; [done|]. intros k sg' Hk. exists sg'.
    by rewrite app_nil_r.
  - destruct (last_reader sgs nm) as [k0|] eqn:Hlast; [|done].
    intros Hpop. destruct (IH _ Hpop) as (Hnames & Hcons).
    rewrite input_names_alter in Hnames. split; [done|].
    intros k sg' Hk. destruct (Hcons k sg' Hk) as (sg1 & Hsg1 & ->).
    assert (Hfilter :
      filter (λ x, last_reader (alter (add_consumed nm) k0 sgs) x = Some k) order
      = filter (λ x, last_reader sgs x = Some k) order).
    { apply filter_ext_elem. intros x _.
      by rewrite (last_reader_ext _ sgs) by apply input_names_alter. }
    rewrite Hfilter, filter_cons. destruct (decide (k0 = k)) as [->|Hne].
    + rewrite list_lookup_alter_eq in Hsg1.
      destruct (sgs !! k) as [sg|] eqn:Hsg; [|done]. injection Hsg1 as <-.
      exists sg. split; [done|]. rewrite decide_True by done. simpl.
      by rewrite <- app_assoc.
    + rewrite list_lookup_alter_ne in Hsg1 by done. exists sg1. split; [done|].
      rewrite decide_False; [done|]. rewrite Hlast. by intros [= ?].
Qed.

Lemma populate_consumed_names_total order sgs :
  (∀ nm, nm ∈ order → is_Some (last_reader sgs nm)) →
  ∃ sgs', populate_consumed_names order sgs = Ok sgs'.
Proof.
  revert sgs. induction order as [|nm order IH]; intros sgs Hall; simpl; [eauto|].
  destruct (Hall nm) as [k Hk]; [left|]. rewrite Hk. apply IH.
  intros x Hx. rewrite (last_reader_ext _ sgs) by apply input_names_alter.
  apply Hall. by right.
Qed.

(** What the executor relies on: the names a subgraph releases are
    exactly those it is the last to read. *)
Definition consumed_ok (sgs : list Subgraph) : Prop :=
  ∀ k sg, sgs !! k = Some sg →
    NoDup (consumed_names sg)
    ∧ ∀ nm, nm ∈ consumed_names sg ↔ last_reader sgs nm = Some k.

Lemma populate_consumed_ok order (sgs sgs' : list Subgraph) :
  NoDup order →
  (∀ nm, nm ∈ order ↔ ∃ sg, sg ∈ sgs ∧ nm ∈ input_names sg) →
  Forall (λ sg, consumed_names sg = []) sgs →
  populate_consumed_names order sgs = Ok sgs' →
  consumed_ok sgs'.
Proof.
  intros Hnd Horder Hempty Hpop.
  destruct (populate_consumed_names_spec _ _ _ Hpop) as (Hnames & Hcons).
  intros k sg' Hk. destruct (Hcons k sg' Hk) as (sg & Hsg & ->).
  assert (Hc : consumed_names sg = []).
  { apply (proj1 (Forall_forall _ _) Hempty sg). by eapply list_elem_of_lookup_2. }
  rewrite !Hc. simpl. split; [by apply NoDup_filter|].
  intros nm. rewrite list_elem_of_filter, (last_reader_ext sgs' sgs) by done.
  split; [by intros [? _]|]. intros Hlast. split; [done|].
  apply Horder. destruct (last_reader_Some _ _ _ Hlast) as (sg0 & Hsg0 & Hin & _).
  exists sg0. split; [by eapply list_elem_of_lookup_2|done].
Qed.

(** [x] occurs in [l] with [y] somewhere after it. *)
Definition before {A} (l : list A) (x y : A) : Prop :=
  ∃ l1 l2, l = l1 ++ x :: l2 ∧ y ∈ l2.

Lemma before_elem {A} (l : list A) x y : before l x y → x ∈ l ∧ y ∈ l.
Proof.
  intros (l1 & l2 & -> & Hy). rewrite !elem_of_app, !elem_of_cons.
  split; [right; by left|right; by right].
Qed.

Lemma before_app {A} (l l' : list A) x y :
  before (l ++ l') x y → before l x y ∨ (x ∈ l ∧ y ∈ l') ∨ before l' x y.
Proof.
  intros (l1 & l2 & Heq & Hy). revert l1 Heq.
  induction l as [|a l IH]; intros l1 Heq; simpl in Heq.
  - right. right. by exists l1, l2.
  - destruct l1 as [|a' l1]; simpl in Heq; injection Heq as -> Heq.
    + subst l2. apply elem_of_app in Hy as [Hy|Hy].
      * left. by exists [], l.
      * right. left. split; [left|done].
    + destruct (IH l1 Heq) as [(m1 & m2 & -> & Hm)|[[Hx Hy']|Hb]].
      * left. by exists (a' :: m1), m2.
      * right. left. split; [by right|done].
      * by right; right.
Qed.

Definition deletes_of (tr : list event) : list (nat * string) :=
  omap (λ e, match e with
             | Delete _ b nm => Some (b, nm)
             | Lookup _ _ _ => None
             end) tr.

Lemma deletes_of_app tr tr' : deletes_of (tr ++ tr') = deletes_of tr ++ deletes_of tr'.
Proof. apply omap_app. Qed.

Lemma deletes_of_lookups k b (l : list string) : deletes_of (Lookup k b <$> l) = [].
Proof. by induction l. Qed.

Lemma deletes_of_deletes k b (l : list string) :
  deletes_of (Delete k b <$> l) = (λ nm, (b, nm)) <$> l.
Proof. induction l; [done|]. simpl. by f_equal. Qed.

Lemma elem_of_deletes_of tr b nm :
  (b, nm) ∈ deletes_of tr ↔ ∃ k, Delete k b nm ∈ tr.
Proof.
  unfold deletes_of. rewrite list_elem_of_omap. split.
  - intros ([k b' nm'|k b' nm'] & Hin & Heq); [done|].
    injection Heq as -> ->. eauto.
  - intros (k & Hin). by exists (Delete k b nm).
Qed.

Section Release.
Context {V : Type}.
Variable attr : string → V.
Variable call : string → list V → V.
Variable as_mapping : V → option (gmap string V).

Lemma gather_trace k b nms (im acc : gmap string V) tr tr' r :
  gather k b nms im acc tr = (tr', r) →
  ∃ looked, tr' = tr ++ (Lookup k b <$> looked)
            ∧ looked `prefix_of` nms
            ∧ ∀ x, r = Ok x → looked = nms.
Proof.
  revert acc tr. induction nms as [|nm nms IH]; intros acc tr; simpl.
  - intros [= <- <-]. exists []. rewrite app_nil_r. by split_and!.
  - destruct (im !! nm) as [v|].
    + intros Hg. destruct (IH _ _ Hg) as (looked & -> & Hpre & Hall).
      exists (nm :: looked). split_and!.
      * by rewrite <- app_assoc.
      * by apply prefix_cons.
      * intros x Hx. f_equal. by eapply Hall.
    + intros [= <- <-]. exists [nm]. split_and!; [done| |done].
      apply prefix_cons, prefix_nil.
Qed.

Lemma release_trace k b nms (im : gmap string V) tr tr' r :
  release k b nms im tr = (tr', r) →
  ∃ deleted, tr' = tr ++ (Delete k b <$> deleted)
             ∧ deleted `prefix_of` nms
             ∧ ∀ x, r = Ok x → deleted = nms.
Proof.
  revert im tr. induction nms as [|nm nms IH]; intros im tr; simpl.
  - intros [= <- <-]. exists []. rewrite app_nil_r. by split_and!.
  - destruct (im !! nm) as [v|].
    + intros Hg. destruct (IH _ _ Hg) as (deleted & -> & Hpre & Hall).
      exists (nm :: deleted). split_and!.
      * by rewrite <- app_assoc.
      * by apply prefix_cons.
      * intros x Hx. f_equal. by eapply Hall.
    + intros [= <- <-]. exists []. rewrite app_nil_r. split_and!; [done| |done].
      apply prefix_nil.
Qed.

Lemma run_batch_trace last k sg b (st st' : DState) r :
  run_batch attr call as_mapping last k sg b st = (st', r) →
  length (batch_intermediates st') = length (batch_intermediates st)
  ∧ ∃ looked deleted,
      trace st' = trace st ++ (Lookup k b <$> looked) ++ (Delete k b <$> deleted)
      ∧ looked `prefix_of` input_names sg
      ∧ deleted `prefix_of` consumed_names sg
      ∧ (r = Ok tt → looked = input_names sg ∧ deleted = consumed_names sg).
Proof.
  unfold run_batch.
  assert (Hnone : ∃ looked deleted : list string,
    trace st = trace st ++ (Lookup k b <$> looked) ++ (Delete k b <$> deleted)
    ∧ looked `prefix_of` input_names sg ∧ deleted `prefix_of` consumed_names sg).
  { exists [], []. simpl. rewrite app_nil_r. split_and!; [done|apply prefix_nil..]. }
  destruct (batch_intermediates st !! b) as [im|].
  2:{ intros [= <- <-]. split; [done|]. destruct Hnone as (l & d & ? & ? & ?).
      exists l, d. by split_and!. }
  destruct (gather k b (input_names sg) im ∅ (trace st)) as [tr1 r1] eqn:Hg.
  destruct (gather_trace _ _ _ _ _ _ _ _ Hg) as (looked & -> & Hpre & Hall).
  assert (Hlook : ∀ e, ∃ looked' deleted : list string,
    trace st ++ (Lookup k b <$> looked)
    = trace st ++ (Lookup k b <$> looked') ++ (Delete k b <$> deleted)
    ∧ looked' `prefix_of` input_names sg ∧ deleted `prefix_of` consumed_names sg
    ∧ (Raise e = Ok tt → looked' = input_names sg ∧ deleted = consumed_names sg)).
  { intros e. exists looked, []. simpl. rewrite app_nil_r.
    split_and!; [done|done|apply prefix_nil|done]. }
  destruct r1 as [inputs|e|].
  2:{ intros [= <- <-]. split; [done|]. apply Hlook. }
  2:{ intros [= <- <-]. split; [done|]. destruct Hnone as (l & d & ? & ? & ?).
      exists l, d. by split_and!. }
  rewrite (Hall inputs eq_refl) in *. clear Hall Hpre.
  destruct (forward_function attr call sg inputs) as [out|e|].
  2:{ intros [= <- <-]. split; [done|]. apply Hlook. }
  2:{ intros [= <- <-]. split; [done|]. destruct Hnone as (l & d & ? & ? & ?).
      exists l, d. by split_and!. }
  destruct (release k b (consumed_names sg) im
              (trace st ++ (Lookup k b <$> input_names sg))) as [tr2 r2] eqn:Hr.
  destruct (release_trace _ _ _ _ _ _ _ Hr) as (deleted & -> & Hpre & Hall).
  rewrite <- app_assoc.
  destruct r2 as [im'|e|].
  2:{ intros [= <- <-]. split; [done|]. exists (input_names sg), deleted.
      by split_and!. }
  2:{ intros [= <- <-]. split; [done|]. destruct Hnone as (l & d & ? & ? & ?).
      exists l, d. by split_and!. }
  rewrite (Hall im' eq_refl) in *.
  destruct last.
  - intros [= <- <-]. split; [done|]. exists (input_names sg), (consumed_names sg).
    by split_and!.
  - destruct (update as_mapping im' out) as [im''|e|].
    + intros [= <- <-]. simpl. split; [by rewrite length_insert|].
      exists (input_names sg), (consumed_names sg). by split_and!.
    + intros [= <- <-]. simpl. split; [by rewrite length_insert|].
      exists (input_names sg), (consumed_names sg). by split_and!.
    + intros [= <- <-]. split; [done|]. destruct Hnone as (l & d & ? & ? & ?).
      exists l, d. by split_and!.
Qed.

(** The executor is at batch [B] of subgraph [K]: position
    [(k, b)] lies behind it. *)
Definition behind (K B k b : nat) : Prop := k < K ∨ (k = K ∧ b < B).

Section Safety.
Variable sgs : list Subgraph.
Hypothesis sgs_ok : consumed_ok sgs.

Record safe (K B : nat) (tr : list event) : Prop := {
  safe_last : ∀ k b nm, Delete k b nm ∈ tr →
    last_reader sgs nm = Some k ∧ behind K B k b;
  safe_order : ∀ k k' b nm, ¬ before tr (Delete k b nm) (Lookup k' b nm);
  safe_once : NoDup (deletes_of tr)
}.

(** Every release that was due has happened, in each of the first
    [n] batches. *)
Definition complete (n K B : nat) (tr : list event) : Prop :=
  ∀ k b nm, last_reader sgs nm = Some k → behind K B k b → b < n →
    Delete k b nm ∈ tr.

Lemma safe_step K B sg tr looked deleted :
  sgs !! K = Some sg →
  looked `prefix_of` input_names sg →
  deleted `prefix_of` consumed_names sg →
  safe K B tr →
  safe K (S B) (tr ++ (Lookup K B <$> looked) ++ (Delete K B <$> deleted)).
Proof.
  intros Hsg [l' Hl] [d' Hd] [S1 S2 S3].
  destruct (sgs_ok K sg Hsg) as [Hnd Hcons].
  assert (Hdel : ∀ nm, nm ∈ deleted → last_reader sgs nm = Some K).
  { intros nm Hnm. apply Hcons. rewrite Hd. apply elem_of_app. by left. }
  assert (Hnew : ∀ e, e ∈ (Lookup K B <$> looked) ++ (Delete K B <$> deleted) →
            (∃ nm, e = Lookup K B nm ∧ nm ∈ looked)
            ∨ (∃ nm, e = Delete K B nm ∧ nm ∈ deleted)).
  { intros e [(nm & -> & ?)%list_elem_of_fmap|(nm & -> & ?)%list_elem_of_fmap]%elem_of_app;
      eauto. }
  split.
  - intros k b nm [Hin|Hin]%elem_of_app.
    + destruct (S1 _ _ _ Hin) as [? Hb]. split; [done|].
      destruct Hb as [?|[? ?]]; [by left|right; split; [done|lia]].
    + destruct (Hnew _ Hin) as [(nm' & [=] & _)|(nm' & [= -> -> <-] & Hnm)].
      split; [by apply Hdel|]. right. split; [done|lia].
  - intros k k' b nm [Hb|[[HD HL]|Hb]]%before_app.
    + by eapply S2.
    + destruct (S1 _ _ _ HD) as [Hlast Hbehind].
      destruct (Hnew _ HL) as [(nm' & [= -> -> <-] & Hnm)|(nm' & [=] & _)].
      destruct (last_reader_ge sgs nm K sg Hsg) as (k0 & Hk0 & Hle).
      { rewrite Hl. apply elem_of_app. by left. }
      rewrite Hlast in Hk0. injection Hk0 as ->.
      destruct Hbehind as [?|[? ?]]; lia.
    + apply before_app in Hb as [Hb|[[HD _]|Hb]].
      * apply before_elem in Hb as [(? & [=] & _)%list_elem_of_fmap _].
      * by apply list_elem_of_fmap in HD as (? & [=] & _).
      * apply before_elem in Hb as [_ (? & [=] & _)%list_elem_of_fmap].
  - rewrite !deletes_of_app, deletes_of_lookups, deletes_of_deletes. simpl.
    apply NoDup_app. split_and!; [done| |].
    + intros [b nm] (k & Hold)%elem_of_deletes_of
        (nm' & [= -> ->] & Hnm)%list_elem_of_fmap.
      destruct (S1 _ _ _ Hold) as [Hlast Hbehind].
      rewrite (Hdel _ Hnm) in Hlast. injection Hlast as <-.
      destruct Hbehind as [?|[? ?]]; lia.
    + apply NoDup_fmap_2; [by intros ?? [=]|].
      rewrite Hd in Hnd. by apply NoDup_app in Hnd as (? & _).
Qed.

Lemma complete_step n K B sg tr :
  sgs !! K = Some sg →
  complete n K B tr →
  complete n K (S B)
    (tr ++ (Lookup K B <$> input_names sg) ++ (Delete K B <$> consumed_names sg)).
Proof.
  intros Hsg Hc k b nm Hlast Hbehind Hb.
  destruct (decide (k = K ∧ b = B)) as [[-> ->]|Hne].
  - rewrite !elem_of_app. right. right. apply list_elem_of_fmap_2.
    by apply (sgs_ok K sg Hsg).
  - apply elem_of_app. left. apply Hc; [done| |done].
    destruct Hbehind as [?|[? ?]]; [by left|right; split; [done|lia]].
Qed.

Lemma run_batches_safe last K sg n batches B (st st' : DState) r :
  sgs !! K = Some sg →
  batches = seq B n →
  run_batches attr call as_mapping last K sg batches st = (st', r) →
  safe K B (trace st) →
  length (batch_intermediates st') = length (batch_intermediates st)
  ∧ safe K (B + n) (trace st')
  ∧ ∀ m, r = Ok tt → complete m K B (trace st) → complete m K (B + n) (trace st').
Proof.
  intros Hsg. revert batches B st.
  induction n as [|n IH]; intros batches B st -> ; simpl.
  - intros [= <- <-] Hs. rewrite Nat.add_0_r. by split_and!.
  - destruct (run_batch attr call as_mapping last K sg B st) as [st1 r1] eqn:Hb.
    destruct (run_batch_trace _ _ _ _ _ _ _ Hb)
      as (Hlen & looked & deleted & Htr & Hl & Hd & Hall).
    intros Hrun Hs.
    assert (Hs1 : safe K (S B) (trace st1)).
    { rewrite Htr. by eapply safe_step. }
    destruct r1 as [[]|e|].
    + destruct (IH _ (S B) st1 eq_refl Hrun Hs1) as (Hlen' & Hs' & Hc').
      replace (B + S n) with (S B + n) by lia. split_and!; [congruence|done|].
      intros m Hr Hc. apply Hc'; [done|]. rewrite Htr.
      destruct (Hall eq_refl) as [-> ->]. by apply complete_step.
    + injection Hrun as <- <-. split_and!; [done| |done].
      destruct Hs1 as [S1 S2 S3]. split; [|done|done].
      intros k b nm Hin. destruct (S1 _ _ _ Hin) as [? Hbe]. split; [done|].
      destruct Hbe as [?|[? ?]]; [by left|right; split; [done|lia]].
    + injection Hrun as <- <-. split_and!; [done| |done].
      destruct Hs1 as [S1 S2 S3]. split; [|done|done].
      intros k b nm Hin. destruct (S1 _ _ _ Hin) as [? Hbe]. split; [done|].
      destruct Hbe as [?|[? ?]]; [by left|right; split; [done|lia]].
Qed.

Lemma run_subgraphs_safe n K rest (st st' : DState) r :
  (∀ j sg, rest !! j = Some sg → sgs !! (K + j) = Some sg) →
  length (batch_intermediates st) = n →
  run_subgraphs attr call as_mapping K rest st = (st', r) →
  safe K 0 (trace st) →
  (∃ K' B', safe K' B' (trace st'))
  ∧ (r = Ok tt → complete n K 0 (trace st) →
     complete n (K + length rest) 0 (trace st')).
Proof.
  revert K st. induction rest as [|sg rest IH]; intros K st Hrest Hn; simpl.
  - intros [= <- <-] Hs. rewrite Nat.add_0_r. split; [eauto|done].
  - destruct (run_batches attr call as_mapping (bool_decide (rest = [])) K sg
                (seq 0 (length (batch_intermediates st))) st)
      as [st1 r1] eqn:Hb.
    intros Hrun Hs.
    assert (HsgK : sgs !! K = Some sg).
    { specialize (Hrest 0 sg eq_refl). by rewrite Nat.add_0_r in Hrest. }
    destruct (run_batches_safe _ K sg _ _ 0 _ _ _ HsgK eq_refl Hb Hs)
      as (Hlen & Hs1 & Hc1).
    simpl in Hs1.
    assert (Hs1' : safe (S K) 0 (trace st1)).
    { destruct Hs1 as [S1 S2 S3]. split; [|done|done].
      intros k b nm Hin. destruct (S1 _ _ _ Hin) as [? Hbe]. split; [done|].
      left. destruct Hbe as [?|[? ?]]; lia. }
    destruct r1 as [[]|e|].
    + destruct (IH (S K) st1) with (2 := eq_trans Hlen Hn) (3 := Hrun) (4 := Hs1')
        as (Hs' & Hc').
      { intros j sg' Hj. replace (S K + j) with (K + S j) by lia. by apply Hrest. }
      split; [done|]. intros Hr Hc.
      replace (K + S (length rest)) with (S K + length rest) by lia.
      apply Hc'; [done|]. intros k b nm Hlast Hbe Hb'.
      apply (Hc1 n eq_refl Hc); [done| |done].
      destruct Hbe as [Hlt|[? ?]]; [|lia].
      destruct (decide (k = K)) as [->|?]; [right; split; [done|lia]|left; lia].
    + injection Hrun as <- <-. split; [eauto|done].
    + injection Hrun as <- <-. split; [eauto|done].
Qed.

End Safety.

End Release.

(** Subgraph [k] is the last, in execution order, to list [nm] among
    its inputs. *)
Definition last_use (sgs : list Subgraph) (nm : string) (k : nat) : Prop :=
  ∃ sg, sgs !! k = Some sg ∧ nm ∈ input_names sg
        ∧ ∀ j sg', k < j → sgs !! j = Some sg' → nm ∉ input_names sg'.

(** Two subgraphs, the second reading what the first passes on. *)
Definition subgraphs_demo : list Subgraph :=
  [ mkSubgraph [mkNode "x" placeholder [] []] (Some ["x"]) ["x"] [];
    mkSubgraph [mkNode "x" placeholder [] []; mkNode "out" output ["x"] []]
      None ["x"] [] ].



(** *** Sequential equivalence *)

(** The subgraphs built for [g_aux_head] with the head as target: the
    graph's output node lands in the first of two partitions. *)
Definition subgraphs_aux_head : list Subgraph :=
  [ mkSubgraph
      [ mkNode "x" placeholder [] [];
        mkNode "h" call_function ["x"] [];
        mkNode "r" call_function ["h"] [];
        mkNode "out" output ["h"] [] ]
      None ["x"] ["x"];
    mkSubgraph
      [ mkNode "r" placeholder [] [];
        mkNode "head" call_module ["r"] [] ]
      (Some []) ["r"] ["r"] ].

Lemma init_forward_aux_head :
  init_forward g_aux_head ["head"] = Ok subgraphs_aux_head.
Proof. reflexivity. Qed.

(** C1 at [g_aux_head].  The traced module returns the value of its
    output node.  The partitioned run never does: the first subgraph
    holds the output node, so its result is fed to [dict.update]
    (which raises unless that value is a mapping), the second
    subgraph then misses its input ["r"] (unless the mapping happens
    to carry that key), and what it returns at best is the empty
    dictionary synthesized for it. *)
Theorem forward_misses_output {V : Type} (attr : string → V)
    (call : string → list V → V) (as_mapping : V → option (gmap string V))
    (x : V) :
  model_forward attr call g_aux_head {["x" := x]}
  = Ok (Ret (call "out" [call "h" [x]]))
  ∧ (forward attr call as_mapping subgraphs_aux_head {["x" := x]}
     = Raise (TypeError "cannot convert dictionary update sequence")
     ∨ forward attr call as_mapping subgraphs_aux_head {["x" := x]}
       = Raise (KeyError "r")
     ∨ forward attr call as_mapping subgraphs_aux_head {["x" := x]}
       = Ok (Dict ∅)).
Proof.
  split; [reflexivity|].
  set (out := call "out" [call "h" [x]]).
  assert (Hfirst : forward_function attr call
            (mkSubgraph
               [ mkNode "x" placeholder [] [];
                 mkNode "h" call_function ["x"] [];
                 mkNode "r" call_function ["h"] [];
                 mkNode "out" output ["h"] [] ]
               None ["x"] ["x"]) (<["x" := x]> ∅) = Ok (Ret out)) by reflexivity.
  assert (Hsecond : ∀ v, forward_function attr call
            (mkSubgraph
               [ mkNode "r" placeholder [] [];
                 mkNode "head" call_module ["r"] [] ]
               (Some []) ["r"] ["r"]) (<["r" := v]> ∅) = Ok (Dict ∅)) by reflexivity.
  unfold forward, subgraphs_aux_head. cbn [forward_from input_names consumed_names gather].
  rewrite lookup_singleton_eq. cbn [gather snd mbind result_bind].
  rewrite Hfirst. cbn [mbind result_bind update].
  destruct (as_mapping out) as [m|]; [|by left].
  right. cbn [mbind result_bind release].
  assert (Hx : is_Some ((m ∪ {["x" := x]}) !! "x")).
  { apply lookup_union_is_Some. right. by rewrite lookup_singleton_eq. }
  destruct Hx as [vx Hx]. rewrite Hx. cbn [release snd mbind result_bind gather].
  replace (delete "x" (m ∪ {["x" := x]}) !! "r") with (m !! "r").
  2:{ rewrite lookup_delete_ne by done. rewrite lookup_union_l; [done|].
      by rewrite lookup_singleton_ne. }
  destruct (m !! "r") as [vr|]; [right|by left].
  cbn [gather snd mbind result_bind]. apply Hsecond.
Qed.

(** ** Further properties of the partitioner *)

(** *** Constants nobody reads *)

Lemma attach_get_attrs_users nodes parts parts' :
  attach_get_attrs nodes parts = Ok parts' →
  ∀ n, n ∈ nodes → op n = get_attr → users n ≠ [].
Proof.
  revert parts. induction nodes as [|m nodes IH]; intros parts Hatt n Hn Hop.
  - by apply elem_of_nil in Hn.
  - simpl in Hatt. case_decide as Hm.
    + apply bind_Ok in Hatt as (index & Hmin & Hatt).
      apply bind_Ok in Hatt as (parts1 & _ & Hatt).
      apply elem_of_cons in Hn as [->|Hn]; [|by eapply IH].
      intros Hus. by rewrite Hus in Hmin.
    + apply elem_of_cons in Hn as [->|Hn]; [done|by eapply IH].
Qed.

(** The second pass can only fail in [min]. *)
Lemma attach_get_attrs_outcome nodes parts :
  (∃ parts', attach_get_attrs nodes parts = Ok parts')
  ∨ attach_get_attrs nodes parts
    = Raise (ValueError "min() arg is an empty sequence").
Proof.
  revert parts. induction nodes as [|n nodes IH]; intros parts; simpl; [eauto|].
  case_decide as Hop; [|done].
  destruct (omap (partition_of parts) (users n)) as [|x l] eqn:Hom; [by right|].
  simpl. unfold insert_front. rewrite decide_True; [simpl; apply IH|].
  assert (Hx : x ∈ omap (partition_of parts) (users n)) by (rewrite Hom; left).
  apply list_elem_of_omap in Hx as (u & _ & Hx). apply partition_of_Some in Hx.
  pose proof (foldl_min_le x l). lia.
Qed.

(** X1.  [topological_partition] returns only for graphs in which
    every constant ([get_attr] node) has a user.  On an
    edge-consistent graph holding a constant that nobody reads, the
    traversal completes and the second pass raises the [ValueError] of
    [min] on an empty list. *)
Theorem unused_constant_raises g target_nodes :
  (∀ ps, topological_partition g target_nodes = Ok ps → constants_used g)
  ∧ (NoDup (names g) →
     (∀ n, n ∈ g → op n = get_attr → all_input_nodes n = []) →
     check_assumption g = true →
     ¬ constants_used g →
     topological_partition g target_nodes
     = Raise (ValueError "min() arg is an empty sequence")).
Proof.
  split.
  - intros ps Htp n Hn Hop. unfold topological_partition in Htp.
    apply bind_Ok in Htp as ([] & _ & Htp).
    apply bind_Ok in Htp as (st & _ & Htp).
    apply bind_Ok in Htp as (parts & Hatt & _).
    by eapply attach_get_attrs_users.
  - intros Hnd Hsrc Hcheck Hunused. unfold topological_partition.
    rewrite Hcheck. simpl.
    pose proof (init_winv g target_nodes Hnd Hsrc) as Hw0.
    pose proof (init_sinv g Hnd) as Hs0. simpl in Hw0, Hs0.
    destruct (traverse_total g target_nodes Hnd Hcheck (length g) _ Hw0 Hs0)
      as (st & Htr & _); [simpl; lia|].
    rewrite Htr. simpl.
    destruct (attach_get_attrs_outcome g (partitions st)) as [[ps Hatt]|Hatt].
    + destruct Hunused. intros n Hn Hop. by eapply attach_get_attrs_users.
    + by rewrite Hatt.
Qed.

Lemma unused_constant_raises_witness :
  topological_partition g_unused_const []
  = Raise (ValueError "min() arg is an empty sequence").
Proof.
  apply (proj2 (unused_constant_raises g_unused_const [])).
  - vm_compute. apply NoDup_ListNoDup. repeat constructor; simpl; intuition discriminate.
  - intros n Hn. repeat (apply elem_of_cons in Hn as [->|Hn]); try done.
    by apply elem_of_nil in Hn.
  - reflexivity.
  - intros Hused. apply (Hused (mkNode "c" get_attr [] [])); [right; left|done|done].
Defined.

(** *** The earlier version of the partitioner *)

Lemma foldl_ext_elem {A B} (f f' : A → B → A) (l : list B) (a : A) :
  (∀ a x, x ∈ l → f a x = f' a x) → foldl f a l = foldl f' a l.
Proof.
  revert a. induction l as [|x l IH]; intros a Hext; simpl; [done|].
  rewrite Hext by left. apply IH. intros a' y Hy. apply Hext. by right.
Qed.

Lemma filter_all {A} (P : A → Prop) `{∀ x, Decision (P x)} (l : list A) :
  (∀ x, x ∈ l → P x) → filter P l = l.
Proof.
  induction l as [|x l IH]; intros Hall; [done|].
  rewrite filter_cons_True by (apply Hall; left).
  f_equal. apply IH. intros y Hy. apply Hall. by right.
Qed.

Lemma attach_get_attrs_none nodes parts :
  Forall (λ n, op n ≠ get_attr) nodes → attach_get_attrs nodes parts = Ok parts.
Proof.
  induction 1 as [|n nodes Hn _ IH]; simpl; [done|]. by rewrite decide_False.
Qed.

Lemma is_get_attr_none g nm :
  Forall (λ n, op n ≠ get_attr) g → is_get_attr g nm = false.
Proof.
  intros Hall. unfold is_get_attr. destruct (node_of g nm) as [n|] eqn:Hn; [|done].
  apply node_of_Some in Hn as [Hn _]. apply bool_decide_eq_false.
  by apply (proj1 (Forall_forall _ _) Hall).
Qed.

(** X2.  On a graph without constants the partitioner of
    [partitioned_model.py] and its earlier version in
    [graph_resuming.py] give the same outcome, result or error. *)
Theorem resuming_agrees_without_constants g target_nodes :
  Forall (λ n, op n ≠ get_attr) g →
  topological_partition g target_nodes
  = topological_partition_resuming g target_nodes.
Proof.
  intros Hall. unfold topological_partition, topological_partition_resuming.
  destruct (check_assumption g); simpl; [|done].
  assert (Hrem : init_remaining_indegrees g
                 = foldl (λ m n, <[name n := indegree_resuming n]> m) ∅ g).
  { unfold init_remaining_indegrees. apply foldl_ext_elem. intros m n _.
    f_equal. unfold indegree, indegree_resuming. do 2 f_equal.
    apply filter_all. intros i _. by apply is_get_attr_none. }
  rewrite <- Hrem.
  assert (Hq : init_queue g (init_remaining_indegrees g)
               = names (filter (λ n, init_remaining_indegrees g !! name n
                                     = Some 0%Z) g)).
  { unfold init_queue. f_equal. apply filter_ext_elem. intros n Hn.
    split; [by intros [? _]|]. intros ?. split; [done|].
    by apply (proj1 (Forall_forall _ _) Hall). }
  rewrite Hq.
  destruct (traverse _ _ _ _) as [st| |]; simpl; [|done..].
  by rewrite attach_get_attrs_none.
Qed.

Lemma resuming_agrees_without_constants_witness :
  topological_partition g_aux_head ["head"]
  = topological_partition_resuming g_aux_head ["head"].
Proof.
  apply (resuming_agrees_without_constants g_aux_head ["head"]).
  repeat constructor; discriminate.
Defined.

(** *** What [forward_data] returns *)

Section Outputs.
Context {V : Type}.
Variable attr : string → V.
Variable call : string → list V → V.
Variable as_mapping : V → option (gmap string V).

(** Batch [b] has its output. *)
Definition filled (outs : list (option (@retval V))) (b : nat) : Prop :=
  ∃ out, outs !! b = Some (Some out).

Lemma run_batch_outputs last k sg b (st st' : DState) :
  run_batch attr call as_mapping last k sg b st = (st', Ok tt) →
  length (batch_intermediates st') = length (batch_intermediates st)
  ∧ (last = true →
     ∃ out, batch_outputs st' = <[b := Some out]> (batch_outputs st))
  ∧ (last = false → batch_outputs st' = batch_outputs st).
Proof.
  unfold run_batch.
  destruct (batch_intermediates st !! b) as [im|]; [|done].
  destruct (gather k b (input_names sg) im ∅ (trace st)) as [tr1 [inputs|e|]];
    [|done..].
  destruct (forward_function attr call sg inputs) as [out|e|]; [|done..].
  destruct (release k b (consumed_names sg) im tr1) as [tr2 [im'|e|]]; [|done..].
  destruct last.
  - intros [= <-]. simpl. split_and!; [done|eauto|done].
  - destruct (update as_mapping im' out) as [im''|e|]; [|done..].
    intros [= <-]. simpl. split_and!; [by rewrite length_insert|done|done].
Qed.

Lemma filled_insert outs b b' (out : @retval V) :
  filled outs b → filled (<[b' := Some out]> outs) b.
Proof.
  intros [o Ho]. destruct (decide (b' = b)) as [->|Hne].
  - exists out. rewrite list_lookup_insert_eq; [done|]. by eapply lookup_lt_Some.
  - exists o. by rewrite list_lookup_insert_ne.
Qed.

Lemma run_batches_outputs last k sg n B (st st' : DState) :
  run_batches attr call as_mapping last k sg (seq B n) st = (st', Ok tt) →
  length (batch_intermediates st') = length (batch_intermediates st)
  ∧ length (batch_outputs st') = length (batch_outputs st)
  ∧ (∀ b, filled (batch_outputs st) b → filled (batch_outputs st') b)
  ∧ (last = true → ∀ b, B ≤ b < B + n → b < length (batch_outputs st) →
       filled (batch_outputs st') b)
  ∧ (last = false → batch_outputs st' = batch_outputs st).
Proof.
  revert B st. induction n as [|n IH]; intros B st; simpl.
  - intros [= <-]. split_and!; [done|done|done| |done]. intros _ b ?. lia.
  - destruct (run_batch attr call as_mapping last k sg B st)
      as [st1 [[]|e|]] eqn:Hb; [|done..].
    destruct (run_batch_outputs _ _ _ _ _ _ Hb) as (Hlen & Hlast & Hnot).
    intros Hrun. destruct (IH _ _ Hrun) as (Hlen' & Houts & Hkeep & Hfill & Hsame).
    assert (Hlen1 : length (batch_outputs st1) = length (batch_outputs st)).
    { destruct last.
      - destruct (Hlast eq_refl) as [out ->]. by rewrite length_insert.
      - by rewrite Hnot. }
    assert (Hkeep1 : ∀ b, filled (batch_outputs st) b → filled (batch_outputs st1) b).
    { intros b Hb'. destruct last.
      - destruct (Hlast eq_refl) as [out ->]. by apply filled_insert.
      - by rewrite Hnot. }
    split_and!; [congruence|congruence|by intros b ?; apply Hkeep, Hkeep1| |].
    + intros Ht b Hrange Hb'. destruct (decide (b = B)) as [->|Hne].
      * apply Hkeep. destruct (Hlast Ht) as [out ->]. exists out.
        by rewrite list_lookup_insert_eq.
      * apply (Hfill Ht); lia.
    + intros Hf. rewrite (Hsame Hf). by apply Hnot.
Qed.

Lemma run_subgraphs_outputs k sgs (st st' : DState) :
  run_subgraphs attr call as_mapping k sgs st = (st', Ok tt) →
  length (batch_outputs st') = length (batch_outputs st)
  ∧ (sgs = [] → batch_outputs st' = batch_outputs st)
  ∧ (sgs ≠ [] →
     length (batch_outputs st) = length (batch_intermediates st) →
     ∀ b, b < length (batch_outputs st) → filled (batch_outputs st') b).
Proof.
  revert k st. induction sgs as [|sg rest IH]; intros k st; simpl.
  - by intros [= <-].
  - destruct (run_batches attr call as_mapping (bool_decide (rest = [])) k sg
                (seq 0 (length (batch_intermediates st))) st)
      as [st1 [[]|e|]] eqn:Hb; [|done..].
    destruct (run_batches_outputs _ _ _ _ _ _ _ Hb)
      as (Hlen & Houts & Hkeep & Hfill & Hsame).
    intros Hrun. destruct (IH _ _ Hrun) as (Hlen' & Hnil & Hcons).
    split_and!; [congruence|done|]. intros _ Heq b Hb'.
    destruct rest as [|sg' rest].
    + rewrite (Hnil eq_refl). apply (Hfill eq_refl); lia.
    + rewrite (Hsame eq_refl) in *. apply Hcons; [done|congruence|done].
Qed.

(** X3.  When [forward_data] returns, it returns one entry per batch
    of the dataloader; with at least one subgraph every entry is the
    output of the last subgraph on that batch, none is left at its
    initial [None].  Without subgraphs every entry is [None]. *)
Theorem forward_data_one_output_per_batch
    (mask : gmap string V → gmap string V) (subgraphs : list Subgraph)
    (dataloader : list (gmap string V)) (st : DState)
    (outs : list (option retval)) :
  forward_data attr call as_mapping mask subgraphs dataloader = (st, Ok outs) →
  length outs = length dataloader
  ∧ (subgraphs ≠ [] →
     ∀ b, b < length dataloader → ∃ out, outs !! b = Some (Some out))
  ∧ (subgraphs = [] → outs = replicate (length dataloader) None).
Proof.
  unfold forward_data.
  destruct (run_subgraphs attr call as_mapping 0 subgraphs _)
    as [st' [[]|e|]] eqn:Hrun; [|done..].
  intros [= <- <-].
  destruct (run_subgraphs_outputs _ _ _ _ Hrun) as (Hlen & Hnil & Hcons).
  simpl in *. rewrite length_replicate in *. split_and!; [done| |done].
  intros Hne b Hb. apply Hcons; [done| |done]. by rewrite length_fmap.
Qed.

End Outputs.

Lemma forward_data_one_output_per_batch_witness :
  ∃ out : @retval Z, [Some (Ret 0%Z)] !! 0 = Some (Some out).
Proof.
  eapply (forward_data_one_output_per_batch (λ _, 0%Z) (λ _ _, 0%Z) (λ _, None)
            (λ m, m)
            [ mkSubgraph [mkNode "x" placeholder [] []] (Some ["x"]) ["x"] [];
              mkSubgraph [mkNode "x" placeholder [] [];
                          mkNode "out" output ["x"] []] None ["x"] ["x"] ]
            [{["x" := 5%Z]}]).
  - reflexivity.
  - done.
  - simpl. lia.
Defined.

End PartitionFacts.

(** ** The Hessian and the quantizer *)

Module GPTQFacts.
Import GPTQ.

(** *** Accumulating the Hessian *)

Lemma gram_app rows rows' a b :
  gram (rows ++ rows') a b = (gram rows a b + gram rows' a b)%R.
Proof.
  unfold gram. induction rows as [|x rows IH]; simpl; [lra|]. rewrite IH. lra.
Qed.

Lemma nth_scale c (x : list R) a :
  nth a (map (Rmult c) x) 0%R = (c * nth a x 0)%R.
Proof.
  revert a. induction x as [|y x IH]; intros [|a]; simpl; try lra. apply IH.
Qed.

Lemma gram_scale c rows a b :
  gram (scale_rows c rows) a b = (c * c * gram rows a b)%R.
Proof.
  unfold gram, scale_rows. induction rows as [|x rows IH]; simpl; [lra|].
  rewrite IH, !nth_scale. lra.
Qed.

Section Accumulation.
Context {QParams : Type}.
Local Abbreviation Wrapper := (@GPTQWrapper QParams).

(** After the samples [seen], [H] is [2 / len(seen)] times the sum
    of the outer products of all their rows. *)
Definition accumulated (self : Wrapper) (seen : list (list (list R))) : Prop :=
  nsamples self = length seen
  ∧ ∀ a b, (H self a b * INR (length seen) = 2 * gram (concat seen) a b)%R.

Lemma wrapper_add_batch_accumulated (self : Wrapper) inp seen :
  is_linear (layer self) = true →
  unsqueeze inp ≠ [] →
  accumulated self seen →
  ∃ self', wrapper_add_batch self inp = (self', Ok tt)
           ∧ layer self' = layer self
           ∧ accumulated self' (seen ++ unsqueeze inp).
Proof.
  intros Hlin Hne [Hn HH]. unfold wrapper_add_batch.
  set (batch := unsqueeze inp) in *.
  assert (Hlen : 0 < length batch) by (destruct batch; [done|simpl; lia]).
  rewrite decide_False by lia. simpl. rewrite Hlin.
  eexists. split; [reflexivity|]. split; [done|]. split; simpl.
  - rewrite length_app. lia.
  - intros a b. rewrite length_app, concat_app, gram_app, gram_scale.
    rewrite Hn. set (n := length seen) in *. set (m := length batch) in *.
    assert (Hpos : (0 < INR (n + m))%R) by (apply lt_0_INR; lia).
    rewrite sqrt_sqrt by (apply Rlt_le, Rdiv_lt_0_compat; lra).
    specialize (HH a b). field_simplify; [|lra]. nra.
Qed.

Lemma calibrate_accumulated (self : Wrapper) batches seen :
  is_linear (layer self) = true →
  Forall (λ inp, unsqueeze inp ≠ []) batches →
  accumulated self seen →
  ∃ self', calibrate self batches = (self', Ok tt)
           ∧ accumulated self' (seen ++ concat (unsqueeze <$> batches)).
Proof.
  intros Hlin Hall. revert self seen Hlin.
  induction Hall as [|inp batches Hne Hall IH]; intros self seen Hlin Hacc; simpl.
  - exists self. by rewrite app_nil_r.
  - destruct (wrapper_add_batch_accumulated self inp seen Hlin Hne Hacc)
      as (self1 & -> & Hlayer & Hacc1).
    destruct (IH self1 (seen ++ unsqueeze inp)) as (self' & Hcal & Hacc');
      [congruence|done|].
    exists self'. split; [done|]. by rewrite app_assoc.
Qed.

End Accumulation.



(** C2.  Starting from [nsamples = 0], any two ways of cutting the
    same sequence of samples into non-empty batches leave the same
    Hessian and the same sample count. *)
Theorem hessian_independent_of_chunking {QParams : Type}
    (self : @GPTQWrapper QParams) (chunks chunks' : list Tensor) :
  is_linear (layer self) = true →
  nsamples self = 0 →
  Forall (λ inp, unsqueeze inp ≠ []) chunks →
  Forall (λ inp, unsqueeze inp ≠ []) chunks' →
  concat (unsqueeze <$> chunks) = concat (unsqueeze <$> chunks') →
  ∃ self1 self2,
    calibrate self chunks = (self1, Ok tt)
    ∧ calibrate self chunks' = (self2, Ok tt)
    ∧ nsamples self1 = nsamples self2
    ∧ ∀ a b, H self1 a b = H self2 a b.
Proof.
  intros Hlin Hzero Hne Hne' Hsame.
  destruct chunks as [|inp0 chunks0] eqn:Hchunks.
  { destruct chunks' as [|inp' chunks']; [by exists self, self|].
    apply Forall_cons in Hne' as [Hinp' _]. simpl in Hsame.
    destruct (unsqueeze inp'); [done|discriminate]. }
  rewrite <- Hchunks in *.
  assert (Hsome : chunks ≠ []) by (by rewrite Hchunks).
  clear Hchunks inp0 chunks0.
  assert (Hacc : accumulated self []).
  { split; [done|]. intros a b. simpl. lra. }
  destruct (calibrate_accumulated self chunks [] Hlin Hne Hacc)
    as (self1 & Hcal1 & Hn1 & HH1).
  destruct (calibrate_accumulated self chunks' [] Hlin Hne' Hacc)
    as (self2 & Hcal2 & Hn2 & HH2).
  simpl in *. rewrite <- Hsame in Hn2, HH2.
  exists self1, self2. split_and!; [done|done|congruence|].
  intros a b. specialize (HH1 a b). specialize (HH2 a b).
  assert (Hpos : (0 < INR (length (concat (unsqueeze <$> chunks))))%R).
  { apply lt_0_INR. destruct chunks as [|inp chunks]; [done|].
    apply Forall_cons in Hne as [Hinp _]. simpl. rewrite length_app.
    destruct (unsqueeze inp); [done|simpl; lia]. }
  nra.
Qed.

Lemma hessian_independent_of_chunking_witness :
  ∃ self1 self2 : @GPTQWrapper unit,
    calibrate (mkGPTQWrapper Linear 1 2 (λ _ _, 0%R) 0
                 (mkTensor2 1 2 (λ _ _, 1%R)) None None None)
      [Rank2 [[1%R; 2%R]]; Rank2 [[3%R; 4%R]]; Rank2 [[5%R; 6%R]]]
    = (self1, Ok tt)
    ∧ calibrate (mkGPTQWrapper Linear 1 2 (λ _ _, 0%R) 0
                   (mkTensor2 1 2 (λ _ _, 1%R)) None None None)
        [Rank2 [[1%R; 2%R]]; Rank3 [[[3%R; 4%R]]; [[5%R; 6%R]]]]
      = (self2, Ok tt)
    ∧ ∀ a b, H self1 a b = H self2 a b.
Proof.
  destruct (hessian_independent_of_chunking
              (mkGPTQWrapper Linear 1 2 (λ _ _, 0%R) 0
                 (mkTensor2 1 2 (λ _ _, 1%R)) None (None : option unit) None)
              [Rank2 [[1%R; 2%R]]; Rank2 [[3%R; 4%R]]; Rank2 [[5%R; 6%R]]]
              [Rank2 [[1%R; 2%R]]; Rank3 [[[3%R; 4%R]]; [[5%R; 6%R]]]])
    as (self1 & self2 & H1 & H2 & _ & HH).
  - reflexivity.
  - reflexivity.
  - repeat constructor; discriminate.
  - repeat constructor; discriminate.
  - reflexivity.
  - exists self1, self2. split_and!; [exact H1|exact H2|exact HH].
Defined.

(** *** Failure of the factorization *)

Definition mentions (needle text : string) : bool :=
  bool_decide (is_Some (String.index 0 needle text)).

Section Inversion.
Context {QParams : Type}.
Variable observer : nat → nat → Matrix → QuantizationArgs → QParams.
Variable reobserve : QParams → nat → nat → list Vector → QParams.
Variable fake_quantize :
  nat → Vector → QParams → qslice → QuantizationArgs → Vector.
Variable cholesky : nat → Matrix → option Matrix.
Variable cholesky_inverse : nat → Matrix → Matrix.
Variable cholesky_upper : nat → Matrix → option Matrix.
Variable argsort_descending : nat → Vector → list nat.
Variable tensor_sparsity : nat → nat → Matrix → R.
Variable SPARSITY_THRESHOLD : R.


(** [invert_hessian], the sibling of the [try] block in
    [gptq_quantize.py], lets the runtime's error through as it is. *)
Lemma invert_hessian_fails n Hm percdamp :
  cholesky n (dampen n Hm percdamp) = None →
  invert_hessian cholesky cholesky_inverse cholesky_upper n Hm percdamp
  = Raise LinAlgError.
Proof. intros Hfail. unfold invert_hessian. by rewrite Hfail. Qed.

End Inversion.

(** Two input features that always carry the same activation: the
    Hessian has rank one and, without damping, no Cholesky factor. *)
Definition per_tensor : QuantizationArgs :=
  mkQuantizationArgs QuantizationStrategy.TENSOR None 0 4 true.

Definition wrapper_rank_one : @GPTQWrapper unit :=
  mkGPTQWrapper Linear 1 2 (λ _ _, 1%R) 1 (mkTensor2 1 2 (λ _ _, 1%R))
    (Some per_tensor) None None.

Lemma rank_one_not_factorizable :
  cholesky_ref 2
    (dampen 2 (mask_dead_hessian (λ _ _ : nat, 1%R)) 0) = None.
Proof.
  set (A := dampen 2 (mask_dead_hessian (λ _ _ : nat, 1%R)) 0).
  assert (HA : ∀ a b, A a b = 1%R).
  { intros a b. unfold A, dampen, mask_dead_hessian, dead.
    repeat case_decide; repeat case_bool_decide; lra. }
  unfold cholesky_ref. simpl. unfold sum_n. simpl.
  destruct (Rlt_dec 0 (A 0 0 - 0)) as [_|Hn]; [|rewrite HA in Hn; lra].
  simpl. destruct (Rlt_dec _ _) as [Hlt|_]; [|done].
  exfalso. rewrite !HA in Hlt. replace (1 - 0)%R with 1%R in Hlt by lra.
  rewrite sqrt_1 in Hlt. lra.
Qed.


(** *** The error term of the block loop *)

Section ErrorTerm.
Context {QParams : Type}.
Variable fake_quantize :
  nat → Vector → QParams → qslice → QuantizationArgs → Vector.

(** In [quantize_weight] the error of the column at local index [i]
    of the block starting at [i1] is measured against column [i] of
    [weight_original], whatever [i1]. *)
Lemma quantize_column_original quant_args g_idx Hinv mask num_rows
    (wo : Tensor2) refresh W i1 count i (st st' : @Block QParams) :
  quantize_column fake_quantize quant_args g_idx Hinv mask num_rows
    (original_column (Some wo)) refresh W i1 count i st = Ok st' →
  ∀ r, losses1 st' r i
       = ((entry wo r i - Q1 st' r i) ^ 2 / Hinv (i1 + i)%nat (i1 + i)%nat ^ 2)%R.
Proof.
  unfold quantize_column, original_column. case_decide; [|done]. simpl.
  destruct (strategy quant_args); simpl; try done;
    intros [= <-] r; simpl; by rewrite !decide_True.
Qed.

(** In [GPTQWrapper.compress] it is measured against the working
    value of that same column, [W1[:, i]]. *)
Lemma quantize_column_working quant_args g_idx Hinv mask num_rows
    refresh W i1 count i (st st' : @Block QParams) :
  quantize_column fake_quantize quant_args g_idx Hinv mask num_rows
    working_column refresh W i1 count i st = Ok st' →
  ∀ r, losses1 st' r i
       = ((W1 st r i - Q1 st' r i) ^ 2 / Hinv (i1 + i)%nat (i1 + i)%nat ^ 2)%R.
Proof.
  unfold quantize_column, working_column. simpl.
  destruct (strategy quant_args); simpl; try done;
    intros [= <-] r; simpl; by rewrite !decide_True.
Qed.

(** With [weight_original] left at its default [None], as
    [GPTQModifier.compress_module] calls it, the first column
    already raises. *)
Lemma quantize_blocks_without_original quant_args g_idx Hinv mask num_rows
    num_columns blocksize refresh W (qp : QParams) :
  0 < num_columns → 0 < blocksize →
  quantize_blocks fake_quantize quant_args g_idx Hinv mask num_rows
    num_columns blocksize (original_column None) refresh W qp
  = Raise (TypeError "'NoneType' object is not subscriptable").
Proof.
  intros Hn Hb. unfold quantize_blocks, block_starts.
  rewrite decide_False by lia. simpl.
  destruct ((num_columns + blocksize - 1) / blocksize) as [|k] eqn:Hk.
  { assert (1 <= (num_columns + blocksize - 1) / blocksize).
    { apply Nat.div_le_lower_bound; lia. }
    lia. }
  simpl. unfold quantize_block. simpl.
  destruct (blocksize `min` num_columns - 0) as [|count] eqn:Hc; [lia|].
  done.
Qed.

(** C3 at one row, two columns and [blocksize = 1], per-tensor
    strategy, no sparsity mask: the loss is half the sum of the two
    column errors, and the error of the second column (second block)
    is taken against the first column of [weight_original]. *)
Theorem second_block_error_reads_first_column (Hinv W wdata : Matrix)
    (qp : QParams) :
  ∃ out,
    quantize_blocks fake_quantize
      (mkQuantizationArgs QuantizationStrategy.TENSOR None 0 4 true) []
      Hinv None 1 2 1 (original_column (Some (mkTensor2 1 2 wdata)))
      (λ _ qp _ _, qp) W qp
    = Ok out
    ∧ let original := wdata 0 0 in
      let quantized0 := oW out 0 0 in
      let quantized1 := oW out 0 1 in
      let d0 := Hinv 0 0 in
      let d1 := Hinv 1 1 in
      olosses out 0
      = ((original - quantized0) ^ 2 / d0 ^ 2 / 2
         + (original - quantized1) ^ 2 / d1 ^ 2 / 2)%R.
Proof.
  eexists. split; [reflexivity|]. simpl. unfold sum_n. simpl. lra.
Qed.

End ErrorTerm.

(** *** Activation ordering and the group index *)

Lemma position_elem j perm :
  j ∈ perm → position j perm < length perm ∧ nth (position j perm) perm 0 = j.
Proof.
  induction perm as [|x perm IH]; [by intros ?%elem_of_nil|].
  simpl. case_decide as Hx; [intros _; split; [lia|done]|].
  intros [?|Hin]%elem_of_cons; [by subst|].
  destruct (IH Hin). split; [lia|done].
Qed.

Lemma position_perm n perm c :
  perm ≡ₚ seq 0 n → c < n →
  position c perm < length perm ∧ nth (position c perm) perm 0 = c.
Proof.
  intros Hp Hc. apply position_elem. rewrite Hp. apply elem_of_seq. lia.
Qed.

Lemma nth_argsort_permutation perm c :
  c < length perm → nth c (argsort_permutation perm) 0 = position c perm.
Proof.
  intros Hc. unfold argsort_permutation. rewrite nth_lookup, list_lookup_fmap.
  by rewrite lookup_seq_lt.
Qed.

Lemma nth_take_indices x idx q :
  q < length idx → nth q (take_indices x idx) 0 = nth (nth q idx 0) x 0.
Proof.
  intros Hq. unfold take_indices. rewrite !nth_lookup, list_lookup_fmap.
  destruct (idx !! q) eqn:E; simpl; [by rewrite nth_lookup|].
  apply lookup_ge_None in E. lia.
Qed.

(** Unpermuting by [argsort] of the permutation puts every column
    back at its index. *)
Lemma unpermute_columns n perm (M : Matrix) r c :
  perm ≡ₚ seq 0 n → c < n →
  permute_columns (permute_columns M perm) (argsort_permutation perm) r c
  = M r c.
Proof.
  intros Hp Hc. unfold permute_columns.
  assert (Hlen : length perm = n) by (by rewrite Hp, length_seq).
  rewrite nth_argsort_permutation by lia.
  by destruct (position_perm n perm c Hp Hc) as [_ ->].
Qed.

Lemma unpermute_indices n perm x :
  perm ≡ₚ seq 0 n → length x = n →
  take_indices (take_indices x perm) (argsort_permutation perm) = x.
Proof.
  intros Hp Hx.
  assert (Hlen : length perm = n) by (by rewrite Hp, length_seq).
  apply list_eq. intros c. unfold take_indices at 1, argsort_permutation.
  rewrite <- list_fmap_compose, list_lookup_fmap. simpl.
  destruct (decide (c < n)) as [Hc|Hc].
  - rewrite lookup_seq_lt by lia. simpl.
    destruct (position_perm n perm c Hp Hc) as [Hlt Hnth].
    rewrite nth_take_indices, Hnth by done. rewrite nth_lookup.
    destruct (x !! c) eqn:E; [done|]. apply lookup_ge_None in E. lia.
  - rewrite lookup_seq_ge by lia. simpl. symmetry. apply lookup_ge_None. lia.
Qed.

Section GroupIndex.
Context {QParams : Type}.
Variable observer : nat → nat → Matrix → QuantizationArgs → QParams.
Variable fake_quantize :
  nat → Vector → QParams → qslice → QuantizationArgs → Vector.
Variable cholesky : nat → Matrix → option Matrix.
Variable cholesky_inverse : nat → Matrix → Matrix.
Variable cholesky_upper : nat → Matrix → option Matrix.
Variable argsort_descending : nat → Vector → list nat.
Variable tensor_sparsity : nat → nat → Matrix → R.
Variable SPARSITY_THRESHOLD : R.

Local Abbreviation quantize_weight' :=
  (quantize_weight observer fake_quantize cholesky cholesky_inverse
     cholesky_upper argsort_descending tensor_sparsity SPARSITY_THRESHOLD).

(** What a returning call went through. *)
Lemma quantize_weight_Ok weight inp quant_args blocksize percdamp
    module_class weight_original out :
  quantize_weight' weight inp quant_args blocksize percdamp module_class
    weight_original = Ok out →
  let W := standardize module_class weight in
  ∃ Hm p Hinv lo,
    compute_hessian inp module_class = Ok Hm
    ∧ prepare observer argsort_descending (nrows W) (ncols W) (entry W) Hm
        quant_args = Ok p
    ∧ invert_hessian cholesky cholesky_inverse cholesky_upper (ncols W)
        (mask_dead_hessian (pH p)) percdamp = Ok Hinv
    ∧ quantize_blocks fake_quantize quant_args (pg_idx p) Hinv
        (sparsity_mask tensor_sparsity SPARSITY_THRESHOLD (nrows W) (ncols W)
           (pW p))
        (nrows W) (ncols W) blocksize (original_column weight_original)
        (λ _ qp _ _, qp) (mask_dead_weight (pH p) (pW p)) (pqp p) = Ok lo
    ∧ loss out = sum_n (nrows W) (olosses lo)
    ∧ match strategy quant_args, actorder quant_args, pperm p with
      | QuantizationStrategy.GROUP, Some ActivationOrdering.WEIGHT, Some perm =>
          quantized_weight out
          = standardize module_class
              (mkTensor2 (nrows W) (ncols W)
                 (permute_columns (oW lo) (argsort_permutation perm)))
          ∧ g_idx_out out = None
      | QuantizationStrategy.GROUP, Some ActivationOrdering.GROUP, Some perm =>
          quantized_weight out
          = standardize module_class
              (mkTensor2 (nrows W) (ncols W)
                 (permute_columns (oW lo) (argsort_permutation perm)))
          ∧ g_idx_out out
            = Some (take_indices (pg_idx p) (argsort_permutation perm))
      | _, _, _ =>
          quantized_weight out
          = standardize module_class (mkTensor2 (nrows W) (ncols W) (oW lo))
          ∧ g_idx_out out = None
      end.
Proof.
  unfold quantize_weight. intros Hq.
  destruct (compute_hessian inp module_class) as [Hm| |]; [|done..].
  simpl in Hq.
  destruct (prepare _ _ _ _ _ Hm quant_args) as [p| |] eqn:Hp; [|done..].
  simpl in Hq.
  destruct (invert_hessian _ _ _ _ _ percdamp) as [Hinv| |] eqn:Hi; [|done..].
  simpl in Hq.
  destruct (quantize_blocks _ _ _ _ _ _ _ _ _ _ _ _) as [lo| |] eqn:Hl; [|done..].
  simpl in Hq. exists Hm, p, Hinv, lo. split_and!; try done.
  - by destruct (strategy quant_args), (actorder quant_args) as [[]|],
      (pperm p); injection Hq as <-.
  - by destruct (strategy quant_args), (actorder quant_args) as [[]|],
      (pperm p); injection Hq as <-.
Qed.

(** What [prepare] leaves for the loop, by strategy and ordering. *)
Lemma prepare_Ok num_rows num_columns W Hm quant_args (p : @Prepared QParams) :
  prepare observer argsort_descending num_rows num_columns W Hm quant_args
  = Ok p →
  let default := (λ c, c / group_size quant_args) <$> seq 0 num_columns in
  let perm := argsort_descending num_columns (λ i, Hm i i) in
  match strategy quant_args, actorder quant_args with
  | QuantizationStrategy.GROUP, Some ActivationOrdering.GROUP =>
      pperm p = Some perm ∧ pg_idx p = default
      ∧ pW p = permute_columns W perm ∧ pH p = permute_both Hm perm
  | QuantizationStrategy.GROUP, Some ActivationOrdering.WEIGHT =>
      pperm p = Some perm ∧ pg_idx p = take_indices default perm
      ∧ pW p = permute_columns W perm ∧ pH p = permute_both Hm perm
  | _, _ => pperm p = None ∧ pW p = W ∧ pH p = Hm
  end.
Proof.
  unfold prepare, apply_activation_ordering.
  destruct (strategy quant_args); try (intros [= <-]; by destruct (actorder quant_args) as [[]|]).
  case_decide; [done|].
  destruct (actorder quant_args) as [[]|]; by intros [= <-].
Qed.

(** The group index [quantize_weight] returns. *)
Lemma quantize_weight_g_idx weight inp quant_args blocksize percdamp
    module_class weight_original out Hm :
  quantize_weight' weight inp quant_args blocksize percdamp module_class
    weight_original = Ok out →
  compute_hessian inp module_class = Ok Hm →
  let n := ncols (standardize module_class weight) in
  let default := (λ c, c / group_size quant_args) <$> seq 0 n in
  let perm := argsort_descending n (λ i, Hm i i) in
  g_idx_out out
  = match strategy quant_args, actorder quant_args with
    | QuantizationStrategy.GROUP, Some ActivationOrdering.GROUP =>
        Some (take_indices default (argsort_permutation perm))
    | _, _ => None
    end.
Proof.
  intros Hq Hhess.
  destruct (quantize_weight_Ok _ _ _ _ _ _ _ _ Hq)
    as (Hm' & p & Hinv & lo & Hh & Hp & _ & _ & _ & Hout).
  rewrite Hhess in Hh. injection Hh as <-.
  apply prepare_Ok in Hp. simpl in *.
  destruct (strategy quant_args), (actorder quant_args) as [[]|];
    try (destruct Hp as (Hperm & _); try rewrite Hperm in Hout;
         by destruct Hout as [_ ->]).
  destruct Hp as (Hperm & Hg & _). rewrite Hperm in Hout.
  destruct Hout as [_ ->]. by rewrite Hg.
Qed.

(** C4, as the code has it.  [quantize_weight] returns a group index
    exactly for the group strategy with ordering [GROUP], whatever
    the resulting mapping: it is the default mapping
    [column // group_size] taken through the inverse permutation.  For
    ordering [WEIGHT] (and without ordering) it returns [None]; there,
    unpermuting puts every column back at its original index, and
    the group index carried through the loop, unpermuted, is the
    default mapping. *)
Theorem group_index_kept_by_ordering weight inp quant_args blocksize percdamp
    module_class weight_original out Hm :
  quantize_weight' weight inp quant_args blocksize percdamp module_class
    weight_original = Ok out →
  compute_hessian inp module_class = Ok Hm →
  let n := ncols (standardize module_class weight) in
  let default := (λ c, c / group_size quant_args) <$> seq 0 n in
  let perm := argsort_descending n (λ i, Hm i i) in
  let invperm := argsort_permutation perm in
  g_idx_out out
  = match strategy quant_args, actorder quant_args with
    | QuantizationStrategy.GROUP, Some ActivationOrdering.GROUP =>
        Some (take_indices default invperm)
    | _, _ => None
    end
  ∧ (perm ≡ₚ seq 0 n →
     (∀ (M : Matrix) r c, c < n →
        permute_columns (permute_columns M perm) invperm r c = M r c)
     ∧ take_indices (take_indices default perm) invperm = default
     ∧ ∀ c, c < n → nth c default 0 = c / group_size quant_args).
Proof.
  intros Hq Hhess n default perm invperm. split.
  - by eapply quantize_weight_g_idx.
  - intros Hperm. split_and!.
    + intros M r c Hc. by eapply unpermute_columns.
    + apply (unpermute_indices n); [done|].
      unfold default. by rewrite length_fmap, length_seq.
    + intros c Hc. unfold default. rewrite nth_lookup, list_lookup_fmap.
      by rewrite lookup_seq_lt.
Qed.

End GroupIndex.

End GPTQFacts.
